(** * memOS UI services: rate limiter, session manager, conversation stream

    A shallow embedding of the TypeScript services of the memOS UI
    (app/services/rateLimit.ts, the session manager, the meme service and
    the image-analysis route) together with the properties that the
    documentation states about them.

    Conventions.
    - [Date.now()] is an explicit argument [now : Z] (milliseconds).
    - The module-level objects ([store], [sessionManager.sessions]) are passed
      and returned explicitly.
    - The rate-limit [store] is a plain object used as a dictionary; it is
      modelled by its own properties, a [gmap string _].  Keys that name a
      member of [Object.prototype] are outside this model: the only caller
      passes an IP address.
    - JavaScript strings that travel through the stream parser are lists of
      UTF-16 code units ([list Z]); byte chunks are [list byte].
    - The built-ins that the services call ([String.prototype] methods,
      [TextDecoder], [JSON.parse]) follow ECMAScript and the Encoding
      standard.
    - A generator is run to its end: what it yields and logs, in order, and
      how it completes. *)

From Stdlib Require Import ZArith List Ascii String Bool Lia.
From Stdlib.Strings Require Import Byte.
From stdpp Require Import base option list strings gmap fin_maps.

Local Open Scope Z_scope.
Set Warnings "-register-all".

(* ===================================================================== *)
(** ** app/services/rateLimit.ts *)
(* ===================================================================== *)

Module RateLimiter.

(** [{ count: number; timestamp: number }] *)
Record RateLimitEntry := { count : Z; timestamp : Z }.

#[global] Instance RateLimitEntry_eq_dec : EqDecision RateLimitEntry.
Proof. solve_decision. Defined.

Definition windowMs : Z := 60 * 1000.
Definition limit : Z := 10.

(** [now - store[key].timestamp > windowMs] *)
Definition stale (now : Z) (e : RateLimitEntry) : bool :=
  windowMs <? now - timestamp e.

(** The [for (const key in store)] loop: every stale entry is deleted. *)
Definition cleanup (now : Z) (store : gmap string RateLimitEntry)
  : gmap string RateLimitEntry :=
  filter (λ kv, stale now kv.2 = false) store.

(** The three-way [if] that follows the loop, as the entry that ends up
    under [ip]. *)
Definition bump (now : Z) (old : option RateLimitEntry) : RateLimitEntry :=
  match old with
  | None => {| count := 1; timestamp := now |}
  | Some e =>
      if stale now e then {| count := 1; timestamp := now |}
      else {| count := count e + 1; timestamp := timestamp e |}
  end.

(** [rateLimit(ip)]: the new store and the [success] field. *)
Definition rateLimit (now : Z) (ip : string)
    (store : gmap string RateLimitEntry)
  : gmap string RateLimitEntry * bool :=
  let store := cleanup now store in
  let e := bump now (store !! ip) in
  (<[ip := e]> store, count e <=? limit).

(** A sequence of calls [(now, ip)], oldest first. *)
Fixpoint serve (calls : list (Z * string))
    (store : gmap string RateLimitEntry)
  : gmap string RateLimitEntry * list bool :=
  match calls with
  | [] => (store, [])
  | (now, ip) :: rest =>
      let '(store, ok) := rateLimit now ip store in
      let '(store, oks) := serve rest store in
      (store, ok :: oks)
  end.

(** How many calls of a trace carry the key [ip]. *)
Definition calls_of (ip : string) (calls : list (Z * string)) : Z :=
  Z.of_nat (length (filter (λ c, c.2 = ip) calls)).

(** No entry for [ip], or one that a call at [t0] finds stale: the call at
    [t0] opens a window. *)
Definition opens_window (store : gmap string RateLimitEntry)
    (ip : string) (t0 : Z) : Prop :=
  match store !! ip with
  | None => True
  | Some e => windowMs < t0 - timestamp e
  end.

End RateLimiter.

(* ===================================================================== *)
(** ** The session manager *)
(* ===================================================================== *)

Module SessionService.

Section WithAny.
(** The type behind the [any] of the two optional fields. *)
Context {any : Type}.

(** [interface UserSession]; an optional field that is missing (or
    [undefined]) is [None]. *)
Record UserSession := {
  id : string;
  lastActive : Z;
  memeService : option any;
  analysis : option any
}.

(** [Partial<UserSession>]: [None] for a field the object does not
    name, [Some v] for one it does. *)
Record Patch := {
  p_id : option string;
  p_lastActive : option Z;
  p_memeService : option (option any);
  p_analysis : option (option any)
}.

Definition SESSION_TIMEOUT : Z := 1000 * 60 * 30.

(** [createSession()], given the identifier that [uuidv4()] returns. *)
Definition createSession (now : Z) (uuid : string)
    (sessions : gmap string UserSession)
  : gmap string UserSession * string :=
  (<[uuid := {| id := uuid; lastActive := now;
                memeService := None; analysis := None |}]> sessions,
   uuid).

(** [getSession(sessionId)] *)
Definition getSession (now : Z) (sessionId : string)
    (sessions : gmap string UserSession)
  : gmap string UserSession * UserSession :=
  match sessions !! sessionId with
  | Some session => (sessions, session)
  | None =>
      let session := {| id := sessionId; lastActive := now;
                        memeService := None; analysis := None |} in
      (<[sessionId := session]> sessions, session)
  end.

(** [{ ...session, ...data, lastActive: Date.now() }] *)
Definition merge (now : Z) (session : UserSession) (data : Patch)
  : UserSession :=
  {| id := default (id session) (p_id data);
     lastActive := now;
     memeService := default (memeService session) (p_memeService data);
     analysis := default (analysis session) (p_analysis data) |}.

(** [updateSession(sessionId, data)] *)
Definition updateSession (now : Z) (sessionId : string) (data : Patch)
    (sessions : gmap string UserSession) : gmap string UserSession :=
  match sessions !! sessionId with
  | Some session => <[sessionId := merge now session data]> sessions
  | None => sessions
  end.

(** The callback that [startCleanupInterval] schedules every five minutes. *)
Definition cleanupInterval (now : Z) (sessions : gmap string UserSession)
  : gmap string UserSession :=
  filter (λ kv, (SESSION_TIMEOUT <? now - lastActive kv.2) = false)
         sessions.

End WithAny.

Arguments UserSession : clear implicits.
Arguments Patch : clear implicits.

End SessionService.

(* ===================================================================== *)
(** ** JavaScript values the services rely on *)
(* ===================================================================== *)

Module JS.

(** A string: its UTF-16 code units. *)
Abbreviation jsstring := (list Z) (only parsing).

(** A literal of the source text, one code unit per character. *)
Definition str (s : string) : jsstring :=
  map (λ a, Z.of_N (N_of_ascii a)) (list_ascii_of_string s).

(** The double-quote character. *)
Definition DQ : jsstring := [34].

(** What a [throw] carries. [SyntaxError] and [TypeError] are raised by the
    built-ins, [Error message] by [new Error(message)]. *)
Inductive js_error :=
| SyntaxError
| TypeError
| Error (message : string).

#[global] Instance js_error_eq_dec : EqDecision js_error.
Proof. solve_decision. Defined.

(** A computation that returns or throws. *)
Inductive result (A : Type) :=
| Ok (a : A)
| Throw (e : js_error).
Arguments Ok {A} a.
Arguments Throw {A} e.

Definition bind {A B} (r : result A) (k : A → result B) : result B :=
  match r with
  | Ok a => k a
  | Throw e => Throw e
  end.

Notation "x <- r ;; k" := (bind r (λ x, k))
  (at level 100, r at next level, right associativity).

Fixpoint eqb_units (a b : jsstring) : bool :=
  match a, b with
  | [], [] => true
  | x :: a, y :: b => (x =? y) && eqb_units a b
  | _, _ => false
  end.

(** [s.startsWith(p)] *)
Fixpoint startsWith (p s : jsstring) : bool :=
  match p, s with
  | [], _ => true
  | x :: p, y :: s => (x =? y) && startsWith p s
  | _ :: _, [] => false
  end.

(** [s.slice(n)] for [0 <= n]. *)
Definition slice (n : nat) (s : jsstring) : jsstring := drop n s.

(** WhiteSpace and LineTerminator code units, which [trim] removes. *)
Definition is_space (c : Z) : bool :=
  (c =? 9) || (c =? 10) || (c =? 11) || (c =? 12) || (c =? 13) ||
  (c =? 32) || (c =? 160) || (c =? 5760) ||
  ((8192 <=? c) && (c <=? 8202)) ||
  (c =? 8232) || (c =? 8233) || (c =? 8239) || (c =? 8287) ||
  (c =? 12288) || (c =? 65279).

Fixpoint trimStart (s : jsstring) : jsstring :=
  match s with
  | [] => []
  | c :: r => if is_space c then trimStart r else s
  end.

(** [s.trim()] *)
Definition trim (s : jsstring) : jsstring :=
  rev (trimStart (rev (trimStart s))).

(** [s.split(sep)] for a separator of one code unit: never empty. *)
Fixpoint split (sep : Z) (s : jsstring) : list jsstring :=
  match s with
  | [] => [[]]
  | c :: r =>
      if c =? sep then [] :: split sep r
      else match split sep r with
           | h :: t => (c :: h) :: t
           | [] => [[c]]
           end
  end.

(** [a.join(sep)] *)
Fixpoint join (sep : jsstring) (a : list jsstring) : jsstring :=
  match a with
  | [] => []
  | [x] => x
  | x :: r => x ++ sep ++ join sep r
  end.

End JS.

(* ===================================================================== *)
(** ** [new TextDecoder().decode(chunk)] *)
(* ===================================================================== *)

Module TextDecoder.
Import JS.

(** The state of the UTF-8 decoder of the Encoding standard. *)
Record utf8 := {
  code_point : Z;
  bytes_seen : Z;
  bytes_needed : Z;
  lower_boundary : Z;
  upper_boundary : Z
}.

Definition fresh : utf8 :=
  {| code_point := 0; bytes_seen := 0; bytes_needed := 0;
     lower_boundary := 128; upper_boundary := 191 |}.

Definition REPLACEMENT : Z := 65533.

(** A byte met while no sequence is open. *)
Definition lead (b : Z) : list Z * utf8 :=
  if b <=? 127 then ([b], fresh)
  else if (194 <=? b) && (b <=? 223) then
    ([], {| code_point := Z.land b 31; bytes_seen := 0; bytes_needed := 1;
            lower_boundary := 128; upper_boundary := 191 |})
  else if (224 <=? b) && (b <=? 239) then
    ([], {| code_point := Z.land b 15; bytes_seen := 0; bytes_needed := 2;
            lower_boundary := if b =? 224 then 160 else 128;
            upper_boundary := if b =? 237 then 159 else 191 |})
  else if (240 <=? b) && (b <=? 244) then
    ([], {| code_point := Z.land b 7; bytes_seen := 0; bytes_needed := 3;
            lower_boundary := if b =? 240 then 144 else 128;
            upper_boundary := if b =? 244 then 143 else 191 |})
  else ([REPLACEMENT], fresh).

(** One byte: the code points it completes and the next state. A byte that
    cannot continue the open sequence ends it with U+FFFD and is then read
    again as a first byte. *)
Definition handler (d : utf8) (b : Z) : list Z * utf8 :=
  if bytes_needed d =? 0 then lead b
  else if (b <? lower_boundary d) || (upper_boundary d <? b) then
    let '(out, d') := lead b in (REPLACEMENT :: out, d')
  else
    let cp := Z.lor (Z.shiftl (code_point d) 6) (Z.land b 63) in
    if bytes_seen d + 1 =? bytes_needed d then ([cp], fresh)
    else ([], {| code_point := cp; bytes_seen := bytes_seen d + 1;
                 bytes_needed := bytes_needed d;
                 lower_boundary := 128; upper_boundary := 191 |}).

(** A byte as a number. *)
Definition unit_of_byte (b : byte) : Z := Z.of_N (Byte.to_N b).

(** The whole input, flushed at its end: an open sequence gives U+FFFD. *)
Fixpoint run (d : utf8) (bytes : list byte) : list Z :=
  match bytes with
  | [] => if bytes_needed d =? 0 then [] else [REPLACEMENT]
  | b :: rest =>
      let '(out, d') := handler d (unit_of_byte b) in
      out ++ run d' rest
  end.

(** A leading byte order mark is dropped ([ignoreBOM] is false). *)
Definition strip_BOM (cps : list Z) : list Z :=
  match cps with
  | c :: rest => if c =? 65279 then rest else cps
  | [] => []
  end.

(** A code point as UTF-16 code units. *)
Definition units (cp : Z) : jsstring :=
  if cp <? 65536 then [cp]
  else [55296 + Z.shiftr (cp - 65536) 10; 56320 + Z.land (cp - 65536) 1023].

(** [decoder.decode(value)], called without [{ stream: true }]: every call
    starts from a fresh decoder and flushes at the end of its chunk. *)
Definition decode (value : list byte) : jsstring :=
  flat_map units (strip_BOM (run fresh value)).

End TextDecoder.

(* ===================================================================== *)
(** ** [JSON.parse] *)
(* ===================================================================== *)

Module JSON.
Import JS.

(** A parsed value. A number is kept as the decimal it was written as,
    [mantissa * 10 ^ exponent]; the members of an object are in source
    order. *)
Inductive json :=
| JNull
| JBool (b : bool)
| JNumber (mantissa exponent : Z)
| JString (s : jsstring)
| JArray (items : list json)
| JObject (members : list (jsstring * json)).

(** An enclosing array or object that still waits for its closing bracket;
    what it holds so far is kept newest first. *)
Inductive frame :=
| InArray (done : list json)
| InObject (done : list (jsstring * json)) (key : jsstring).

Inductive strpos :=
| Chars
| Escape
| Hex (digits : list Z).

Inductive numpos := NMinus | NZero | NInt | NDot | NFrac | NE | NESign | NExp.

Record number := {
  negative : bool;
  digits : Z;
  scale : Z;
  exp_negative : bool;
  exp_digits : Z
}.

(** Where the parser stands between two characters. *)
Inductive mode :=
| Value
| ValueOrClose
| KeyOrClose
| Key (done : list (jsstring * json))
| Colon (done : list (jsstring * json)) (key : jsstring)
| Str (key_of : option (list (jsstring * json))) (acc : jsstring) (p : strpos)
| Num (p : numpos) (n : number)
| Lit (rest : jsstring) (v : json)
| After (v : json).

Definition is_ws (c : Z) : bool :=
  (c =? 9) || (c =? 10) || (c =? 13) || (c =? 32).

Definition is_digit (c : Z) : bool := (48 <=? c) && (c <=? 57).

Definition hex_value (c : Z) : option Z :=
  if (48 <=? c) && (c <=? 57) then Some (c - 48)
  else if (97 <=? c) && (c <=? 102) then Some (c - 87)
  else if (65 <=? c) && (c <=? 70) then Some (c - 55)
  else None.

Definition number_value (n : number) : json :=
  JNumber (if negative n then - digits n else digits n)
          ((if exp_negative n then - exp_digits n else exp_digits n) - scale n).

Definition zero : number :=
  {| negative := false; digits := 0; scale := 0;
     exp_negative := false; exp_digits := 0 |}.

(** The first character of a value. *)
Definition open_value (stack : list frame) (c : Z)
  : option (list frame * mode) :=
  if c =? 123 then Some (stack, KeyOrClose)
  else if c =? 91 then Some (InArray [] :: stack, ValueOrClose)
  else if c =? 34 then Some (stack, Str None [] Chars)
  else if c =? 45 then
    Some (stack, Num NMinus {| negative := true; digits := 0; scale := 0;
                               exp_negative := false; exp_digits := 0 |})
  else if c =? 48 then Some (stack, Num NZero zero)
  else if is_digit c then
    Some (stack, Num NInt {| negative := false; digits := c - 48; scale := 0;
                             exp_negative := false; exp_digits := 0 |})
  else if c =? 116 then Some (stack, Lit (str "rue") (JBool true))
  else if c =? 102 then Some (stack, Lit (str "alse") (JBool false))
  else if c =? 110 then Some (stack, Lit (str "ull") JNull)
  else None.

(** A character that follows a complete value [v]. *)
Definition close_value (stack : list frame) (v : json) (c : Z)
  : option (list frame * mode) :=
  if is_ws c then Some (stack, After v)
  else match stack with
       | InArray done :: below =>
           if c =? 44 then Some (InArray (v :: done) :: below, Value)
           else if c =? 93 then Some (below, After (JArray (rev (v :: done))))
           else None
       | InObject done key :: below =>
           if c =? 44 then Some (below, Key ((key, v) :: done))
           else if c =? 125 then
             Some (below, After (JObject (rev ((key, v) :: done))))
           else None
       | [] => None
       end.

(** A character inside a string literal. *)
Definition string_step (stack : list frame)
    (key_of : option (list (jsstring * json))) (acc : jsstring)
    (p : strpos) (c : Z) : option (list frame * mode) :=
  match p with
  | Chars =>
      if c =? 34 then
        match key_of with
        | Some done => Some (stack, Colon done (rev acc))
        | None => Some (stack, After (JString (rev acc)))
        end
      else if c =? 92 then Some (stack, Str key_of acc Escape)
      else if c <? 32 then None
      else Some (stack, Str key_of (c :: acc) Chars)
  | Escape =>
      if (c =? 34) || (c =? 92) || (c =? 47) then
        Some (stack, Str key_of (c :: acc) Chars)
      else if c =? 98 then Some (stack, Str key_of (8 :: acc) Chars)
      else if c =? 102 then Some (stack, Str key_of (12 :: acc) Chars)
      else if c =? 110 then Some (stack, Str key_of (10 :: acc) Chars)
      else if c =? 114 then Some (stack, Str key_of (13 :: acc) Chars)
      else if c =? 116 then Some (stack, Str key_of (9 :: acc) Chars)
      else if c =? 117 then Some (stack, Str key_of acc (Hex []))
      else None
  | Hex ds =>
      match hex_value c with
      | None => None
      | Some d =>
          match ds with
          | [d3; d2; d1] =>
              Some (stack,
                    Str key_of (((d1 * 16 + d2) * 16 + d3) * 16 + d :: acc)
                        Chars)
          | _ => Some (stack, Str key_of acc (Hex (d :: ds)))
          end
      end
  end.

(** May a number literal end at this position? *)
Definition complete (p : numpos) : bool :=
  match p with
  | NZero | NInt | NFrac | NExp => true
  | _ => false
  end.

Definition push_digit (n : number) (c : Z) : number :=
  {| negative := negative n; digits := digits n * 10 + (c - 48);
     scale := scale n; exp_negative := exp_negative n;
     exp_digits := exp_digits n |}.

Definition push_fraction (n : number) (c : Z) : number :=
  {| negative := negative n; digits := digits n * 10 + (c - 48);
     scale := scale n + 1; exp_negative := exp_negative n;
     exp_digits := exp_digits n |}.

Definition push_exponent (n : number) (c : Z) : number :=
  {| negative := negative n; digits := digits n; scale := scale n;
     exp_negative := exp_negative n;
     exp_digits := exp_digits n * 10 + (c - 48) |}.

Definition negate_exponent (n : number) : number :=
  {| negative := negative n; digits := digits n; scale := scale n;
     exp_negative := true; exp_digits := exp_digits n |}.

(** A character inside a number literal; a character that cannot belong to
    it ends the literal and is read as what follows a value. *)
Definition number_step (stack : list frame) (p : numpos) (n : number) (c : Z)
  : option (list frame * mode) :=
  let is_e := (c =? 101) || (c =? 69) in
  let finish := close_value stack (number_value n) c in
  match p with
  | NMinus =>
      if c =? 48 then Some (stack, Num NZero n)
      else if is_digit c then Some (stack, Num NInt (push_digit n c))
      else None
  | NZero =>
      if c =? 46 then Some (stack, Num NDot n)
      else if is_e then Some (stack, Num NE n)
      else finish
  | NInt =>
      if is_digit c then Some (stack, Num NInt (push_digit n c))
      else if c =? 46 then Some (stack, Num NDot n)
      else if is_e then Some (stack, Num NE n)
      else finish
  | NDot =>
      if is_digit c then Some (stack, Num NFrac (push_fraction n c))
      else None
  | NFrac =>
      if is_digit c then Some (stack, Num NFrac (push_fraction n c))
      else if is_e then Some (stack, Num NE n)
      else finish
  | NE =>
      if c =? 43 then Some (stack, Num NESign n)
      else if c =? 45 then Some (stack, Num NESign (negate_exponent n))
      else if is_digit c then Some (stack, Num NExp (push_exponent n c))
      else None
  | NESign =>
      if is_digit c then Some (stack, Num NExp (push_exponent n c))
      else None
  | NExp =>
      if is_digit c then Some (stack, Num NExp (push_exponent n c))
      else finish
  end.

(** One character of input; [None] is a syntax error. *)
Definition step (st : list frame * mode) (c : Z)
  : option (list frame * mode) :=
  let '(stack, m) := st in
  match m with
  | Value => if is_ws c then Some st else open_value stack c
  | ValueOrClose =>
      if is_ws c then Some st
      else if c =? 93 then
        match stack with
        | InArray _ :: below => Some (below, After (JArray []))
        | _ => None
        end
      else open_value stack c
  | KeyOrClose =>
      if is_ws c then Some st
      else if c =? 125 then Some (stack, After (JObject []))
      else if c =? 34 then Some (stack, Str (Some []) [] Chars)
      else None
  | Key done =>
      if is_ws c then Some st
      else if c =? 34 then Some (stack, Str (Some done) [] Chars)
      else None
  | Colon done key =>
      if is_ws c then Some st
      else if c =? 58 then Some (InObject done key :: stack, Value)
      else None
  | Str key_of acc p => string_step stack key_of acc p c
  | Num p n => number_step stack p n c
  | Lit rest v =>
      match rest with
      | x :: rest' =>
          if c =? x then
            match rest' with
            | [] => Some (stack, After v)
            | _ => Some (stack, Lit rest' v)
            end
          else None
      | [] => None
      end
  | After v => close_value stack v c
  end.

(** The end of the input. *)
Definition finish (st : list frame * mode) : option json :=
  match st with
  | ([], After v) => Some v
  | ([], Num p n) => if complete p then Some (number_value n) else None
  | _ => None
  end.

Fixpoint parse_from (st : list frame * mode) (text : jsstring) : option json :=
  match text with
  | [] => finish st
  | c :: rest =>
      match step st c with
      | Some st' => parse_from st' rest
      | None => None
      end
  end.

(** [JSON.parse(text)]: the value, or a [SyntaxError]. *)
Definition parse (text : jsstring) : result json :=
  match parse_from ([], Value) text with
  | Some v => Ok v
  | None => Throw SyntaxError
  end.

(** [value[key]] on a parsed value, [None] for [undefined]: own members of an
    object, the last one winning; reading a property of [null] throws. *)
Fixpoint member (key : jsstring) (members : list (jsstring * json))
  : option json :=
  match members with
  | [] => None
  | (k, v) :: rest =>
      match member key rest with
      | Some later => Some later
      | None => if eqb_units k key then Some v else None
      end
  end.

Definition get (key : jsstring) (value : json) : result (option json) :=
  match value with
  | JNull => Throw TypeError
  | JObject members => Ok (member key members)
  | _ => Ok None
  end.

(** Does the decimal [m * 10 ^ e] round to the double zero?  It does when it
    is zero or at most [2 ^ -1075]. *)
Definition rounds_to_zero (m e : Z) : bool :=
  (m =? 0) || ((e <? 0) && (Z.abs m * 2 ^ 1075 <=? 10 ^ (- e))).

(** ToBoolean *)
Definition truthy (v : option json) : bool :=
  match v with
  | None => false
  | Some JNull => false
  | Some (JBool b) => b
  | Some (JNumber m e) => negb (rounds_to_zero m e)
  | Some (JString s) => negb (eqb_units s [])
  | Some (JArray _) => true
  | Some (JObject _) => true
  end.

End JSON.

(* ===================================================================== *)
(** ** The meme service (client side) *)
(* ===================================================================== *)

Module MemeService.
Import JS.

Record CharacterAnalysis := {
  name : jsstring;
  appearanceTraits : list jsstring;
  possibleJokes : list jsstring;
  personality : jsstring
}.

(** The private fields of the class. *)
Record MemeService := {
  descripcionPersonaje : option CharacterAnalysis;
  descripcionTexto : jsstring;
  memeName : jsstring;
  imageUrl : jsstring
}.

(** [new MemeService()] *)
Definition new : MemeService :=
  {| descripcionPersonaje := None; descripcionTexto := [];
     memeName := []; imageUrl := [] |}.

Definition NL : jsstring := [10].

Definition convertToTextDescription (analysis : CharacterAnalysis) : jsstring :=
  str "Name: " ++ name analysis ++ NL ++
  str "      " ++ NL ++
  str "Physical Appearance:" ++ NL ++
  join NL (map (λ trait, str "- " ++ trait) (appearanceTraits analysis))
  ++ NL ++
  NL ++
  str "Possible Jokes:" ++ NL ++
  join NL (map (λ joke, str "- " ++ joke) (possibleJokes analysis)) ++ NL ++
  NL ++
  str "Personality: " ++ personality analysis.

Definition initializeCharacter (analysis : CharacterAnalysis)
    (imageUrl : jsstring) (this : MemeService) : MemeService :=
  {| descripcionPersonaje := Some analysis;
     descripcionTexto := convertToTextDescription analysis;
     memeName := name analysis;
     imageUrl := imageUrl |}.

(** What the generator yields. *)
Record Turn := {
  speaker : jsstring;
  message : jsstring;
  turn_imageUrl : jsstring;
  isHacky : bool
}.

(** What a run of the generator lets the outside see, in order: the values
    it yields and its [console.error] calls. *)
Inductive event :=
| Yield (t : Turn)
| ConsoleError (label : string) (e : js_error).

(** How a run ends: the generator returns, or throws. *)
Inductive completion :=
| Returned
| Threw (e : js_error).

(** The body of the request sent to [/api/meme/chat]. *)
Record Request := {
  url : string;
  req_topic : jsstring;
  req_description : jsstring;
  req_memeName : jsstring
}.

(** How the response body ends: [read()] reports [done], or rejects. *)
Inductive stream_end :=
| Closed
| Broken (e : js_error).

(** What the network does with the request: [fetch] rejects, or resolves
    with a response whose body is missing or is a finite stream of chunks. *)
Inductive network :=
| Rejects (e : js_error)
| NoBody
| Body (chunks : list (list byte)) (ending : stream_end).

Record Run := {
  requests : list Request;
  events : list event;
  outcome : completion
}.

(** [message.startsWith(p)] on a parsed value: only a string has the method. *)
Definition startsWith_of (p : jsstring) (v : option JSON.json) : result bool :=
  match v with
  | Some (JSON.JString s) => Ok (startsWith p s)
  | _ => Throw TypeError
  end.

(** [message.slice(n).trim()] on a parsed value. *)
Definition slice_trim_of (n : nat) (v : option JSON.json) : result jsstring :=
  match v with
  | Some (JSON.JString s) => Ok (trim (slice n s))
  | _ => Throw TypeError
  end.

(** The [try] block run for a line that starts with ["data: "]. *)
Definition parse_line (this : MemeService) (line : jsstring)
  : result (list event) :=
  data <- JSON.parse (slice 5 line) ;;
  message <- JSON.get (str "message") data ;;
  if JSON.truthy message then
    isHackyMessage <- startsWith_of (str "Hacky:") message ;;
    text <- (if isHackyMessage : bool then slice_trim_of 6 message
             else slice_trim_of (length (memeName this) + 1) message) ;;
    Ok [Yield {| speaker := if isHackyMessage then str "Hacky"
                            else memeName this;
                 message := text;
                 turn_imageUrl := if isHackyMessage
                                  then str "/images/hacky.jpeg"
                                  else imageUrl this;
                 isHacky := isHackyMessage |}]
  else Ok [].

(** The body of [for (const line of lines)]: the [catch] logs and goes on. *)
Definition on_line (this : MemeService) (line : jsstring) : list event :=
  if startsWith (str "data: ") line then
    match parse_line this line with
    | Ok evs => evs
    | Throw e => [ConsoleError "Error parsing JSON:" e]
    end
  else [].

(** The [while (true)] loop over [reader.read()]. *)
Fixpoint read_loop (this : MemeService) (buffer : jsstring)
    (chunks : list (list byte)) (ending : stream_end)
  : list event * completion :=
  match chunks with
  | [] =>
      match ending with
      | Closed => ([], Returned)
      | Broken e => ([], Threw e)
      end
  | value :: rest =>
      let buffer := buffer ++ TextDecoder.decode value in
      let lines := split 10 buffer in
      let buffer := default [] (last lines) in
      let lines := removelast lines in
      let here := flat_map (on_line this) lines in
      let '(later, c) := read_loop this buffer rest ending in
      (here ++ later, c)
  end.

(** The outer [catch]: log and throw again. *)
Definition rethrow (evs : list event) (c : completion)
  : list event * completion :=
  match c with
  | Returned => (evs, Returned)
  | Threw e => (evs ++ [ConsoleError "Error generating conversation:" e],
                Threw e)
  end.

(** [generateConversation(topic)], driven until it is done. *)
Definition generateConversation (this : MemeService) (topic : jsstring)
    (net : network) : Run :=
  if negb (bool_decide (is_Some (descripcionPersonaje this)))
     || eqb_units (descripcionTexto this) []
  then {| requests := []; events := [];
          outcome := Threw (Error "Must analyze image first") |}
  else
    let request := {| url := "/api/meme/chat"; req_topic := topic;
                      req_description := descripcionTexto this;
                      req_memeName := memeName this |} in
    let '(evs, c) :=
      match net with
      | Rejects e => rethrow [] (Threw e)
      | NoBody => rethrow [] (Threw (Error "No response body"))
      | Body chunks ending =>
          let '(evs, c) := read_loop this [] chunks ending in rethrow evs c
      end in
    {| requests := [request]; events := evs; outcome := c |}.

(** The turns among the events. *)
Definition turns (evs : list event) : list Turn :=
  flat_map (λ ev, match ev with Yield t => [t] | ConsoleError _ _ => [] end)
           evs.

(** How [read_loop] ends, by how the stream ends. *)
Definition ending_outcome (ending : stream_end) : completion :=
  match ending with
  | Closed => Returned
  | Broken e => Threw e
  end.

(** A character analysis and a service initialised with it. *)
Definition pepe_analysis : CharacterAnalysis :=
  {| name := str "Pepe";
     appearanceTraits := [str "green frog"; str "smug grin"];
     possibleJokes := [str "feels good to hodl"];
     personality := str "laid back" |}.

Definition pepe : MemeService :=
  initializeCharacter pepe_analysis (str "blob:pepe") new.

(** The state in which the guard of [generateConversation] lets a call
    through. *)
Definition analysed (this : MemeService) : Prop :=
  is_Some (descripcionPersonaje this) ∧ descripcionTexto this ≠ [].

(** A chunk that holds the bytes of an ASCII text. *)
Definition ascii_chunk (s : string) : list byte := list_byte_of_string s.

(** The byte of the double-quote character. *)
Definition dq : list byte := [x22].

(** The complete lines of a text and what follows the last line break. *)
Definition complete_lines (text : jsstring) : list jsstring :=
  removelast (split 10 text).

Definition pending (text : jsstring) : jsstring :=
  default [] (last (split 10 text)).

End MemeService.

(* ===================================================================== *)
(** ** The image-analysis route *)
(* ===================================================================== *)

Module AnalyzeRoute.
Import JS SessionService.

Record File := { file_type : string; file_bytes : list byte }.

(** The fields of the form; [None] when [formData.get] returns [null]. *)
Record Form := {
  file : option File;
  memeName : option string;
  sessionId : option string
}.

Inductive Payload :=
| ErrorText (text : string)
| ErrorOf (e : js_error)
| Success (analysis : JSON.json).

Record Response := { status : Z; payload : Payload }.

(** ToBoolean of a string or [null]. *)
Definition present (s : option string) : bool :=
  match s with
  | Some s => negb (String.eqb s EmptyString)
  | None => false
  end.

(** ToBoolean of an object reference: every object is truthy. *)
Definition truthy_object {A : Type} (o : A) : bool := true.

(** The [try] block of [POST]. [completion] is what
    [response.choices[0]?.message?.content] evaluates to, or what the call
    to the provider throws; [t_get] and [t_update] are the clock at the two
    calls into the session manager. *)
Definition POST_try (t_get t_update : Z) (form : Form)
    (completion : result (option jsstring))
    (sessions : gmap string (UserSession JSON.json))
  : gmap string (UserSession JSON.json) * result Response :=
  if negb (present (sessionId form)) then
    (sessions, Ok {| status := 400;
                     payload := ErrorText "Se requiere sessionId" |})
  else
    let sid := default EmptyString (sessionId form) in
    let '(sessions, session) := getSession t_get sid sessions in
    if negb (truthy_object session) then
      (sessions, Ok {| status := 401;
                       payload := ErrorText "Sesión inválida" |})
    else if negb (bool_decide (is_Some (file form)))
            || negb (present (memeName form)) then
      (sessions, Ok {| status := 400;
            payload := ErrorText "Se requiere archivo y nombre del meme" |})
    else
      match completion with
      | Throw e => (sessions, Throw e)
      | Ok analysisContent =>
          match analysisContent with
          | None | Some [] =>
              (sessions,
               Throw (Error "No se recibió respuesta válida de OpenAI"))
          | Some text =>
              match JSON.parse text with
              | Throw e => (sessions, Throw e)
              | Ok analysis =>
                  (updateSession t_update sid
                     {| p_id := None; p_lastActive := None;
                        p_memeService := None;
                        p_analysis := Some (Some analysis) |} sessions,
                   Ok {| status := 200; payload := Success analysis |})
              end
          end
      end.

(** [POST(req)]: the [catch] answers 500 with the error. *)
Definition POST (t_get t_update : Z) (form : Form)
    (completion : result (option jsstring))
    (sessions : gmap string (UserSession JSON.json))
  : gmap string (UserSession JSON.json) * Response :=
  match POST_try t_get t_update form completion sessions with
  | (sessions, Ok response) => (sessions, response)
  | (sessions, Throw e) => (sessions, {| status := 500; payload := ErrorOf e |})
  end.

End AnalyzeRoute.

(* ===================================================================== *)
(** ** The middleware in front of the API routes *)
(* ===================================================================== *)

Module Middleware.
Import RateLimiter.

(** What the middleware reads of a request. *)
Record NextRequest := { pathname : string; ip : option string }.

(** [NextResponse.next()], or [NextResponse.json({ error }, { status })]. *)
Inductive NextResponse :=
| Next
| Json (status : Z) (error : string).

(** [request.nextUrl.pathname.startsWith('/api/')] *)
Definition is_api (request : NextRequest) : bool :=
  String.prefix "/api/" (pathname request).

(** [request.ip ?? '127.0.0.1'] *)
Definition client (request : NextRequest) : string :=
  default "127.0.0.1"%string (ip request).

(** [middleware(request)] *)
Definition middleware (now : Z) (request : NextRequest)
    (store : gmap string RateLimitEntry)
  : gmap string RateLimitEntry * NextResponse :=
  if is_api request then
    let '(store, success) := rateLimit now (client request) store in
    if negb success then (store, Json 429 "Demasiadas solicitudes")
    else (store, Next)
  else (store, Next).

(** A sequence of requests [(now, request)], oldest first. *)
Fixpoint handle (requests : list (Z * NextRequest))
    (store : gmap string RateLimitEntry)
  : gmap string RateLimitEntry * list NextResponse :=
  match requests with
  | [] => (store, [])
  | (now, request) :: rest =>
      let '(store, response) := middleware now request store in
      let '(store, responses) := handle rest store in
      (store, response :: responses)
  end.

(** The calls of [rateLimit] that a sequence of requests causes. *)
Fixpoint api_calls (requests : list (Z * NextRequest)) : list (Z * string) :=
  match requests with
  | [] => []
  | (now, request) :: rest =>
      if is_api request then (now, client request) :: api_calls rest
      else api_calls rest
  end.

End Middleware.

(* ===================================================================== *)
(** ** Traces of the rate limiter and of the session manager *)
(* ===================================================================== *)

Module RateLimiterTrace.
Import RateLimiter.

(** The answers that the calls of [ip] get in a sequence of calls. *)
Fixpoint answers_of (ip : string) (calls : list (Z * string))
    (store : gmap string RateLimitEntry) : list bool :=
  match calls with
  | [] => []
  | (now, k) :: rest =>
      let '(store, ok) := rateLimit now k store in
      if decide (k = ip) then ok :: answers_of ip rest store
      else answers_of ip rest store
  end.

(** The calls of [ip] alone. *)
Definition only (ip : string) (calls : list (Z * string))
  : list (Z * string) :=
  filter (λ c, c.2 = ip) calls.

(** The clock never runs backwards between the calls, which start at or
    after [t]. *)
Fixpoint clock_from (t : Z) (calls : list (Z * string)) : Prop :=
  match calls with
  | [] => True
  | (now, _) :: rest => t ≤ now ∧ clock_from now rest
  end.

(** At time [t] the two stores treat [ip] alike: they hold the same entry
    for it, or the first holds none and the entry of the second is stale. *)
Definition same_window (t : Z) (ip : string)
    (s s' : gmap string RateLimitEntry) : Prop :=
  match s !! ip, s' !! ip with
  | Some e, Some e' => e = e'
  | None, None => True
  | None, Some e' => windowMs < t - timestamp e'
  | Some _, None => False
  end.

(** What has been seen so far accounts for every entry: its count is at
    least one and at most the number of calls of its key, and its window
    starts at the time of one of those calls. *)
Definition accounted (seen : list (Z * string))
    (store : gmap string RateLimitEntry) : Prop :=
  ∀ k e, store !! k = Some e →
    1 ≤ count e ≤ calls_of k seen ∧ (timestamp e, k) ∈ seen.

End RateLimiterTrace.

Module SessionTrace.
Import SessionService.

Section WithAny.
Context {any : Type}.

(** The calls into the session manager, and the timer callback. *)
Inductive op :=
| Create (uuid : string)
| Get (sessionId : string)
| Update (sessionId : string) (data : Patch any)
| Sweep.

Definition step (now : Z) (o : op) (sessions : gmap string (UserSession any))
  : gmap string (UserSession any) :=
  match o with
  | Create uuid => (createSession now uuid sessions).1
  | Get sessionId => (getSession now sessionId sessions).1
  | Update sessionId data => updateSession now sessionId data sessions
  | Sweep => cleanupInterval now sessions
  end.

(** A sequence of operations [(now, op)], oldest first. *)
Fixpoint run (trace : list (Z * op)) (sessions : gmap string (UserSession any))
  : gmap string (UserSession any) :=
  match trace with
  | [] => sessions
  | (now, o) :: rest => run rest (step now o sessions)
  end.

(** Every operation of the trace happens no earlier than, and at most
    [SESSION_TIMEOUT] after, the latest update of [sessionId] before it
    ([last] at the start). *)
Fixpoint kept_alive (sessionId : string) (last : Z) (trace : list (Z * op))
  : Prop :=
  match trace with
  | [] => True
  | (now, o) :: rest =>
      last ≤ now ∧ now - last ≤ SESSION_TIMEOUT ∧
      kept_alive sessionId
        (match o with
         | Update i _ => if decide (i = sessionId) then now else last
         | _ => last
         end) rest
  end.

(** The trace only reads: every operation is a [Get]. *)
Definition only_reads (trace : list (Z * op)) : Prop :=
  Forall (λ c, ∃ i, c.2 = Get i) trace.

(** [{ ...d1, ...d2 }] *)
Definition overlay (d1 d2 : Patch any) : Patch any :=
  {| p_id := match p_id d2 with Some v => Some v | None => p_id d1 end;
     p_lastActive := match p_lastActive d2 with
                     | Some v => Some v
                     | None => p_lastActive d1
                     end;
     p_memeService := match p_memeService d2 with
                      | Some v => Some v
                      | None => p_memeService d1
                      end;
     p_analysis := match p_analysis d2 with
                   | Some v => Some v
                   | None => p_analysis d1
                   end |}.

(** Every session is stored under its own [id]. *)
Definition keyed_by_id (sessions : gmap string (UserSession any)) : Prop :=
  ∀ k session, sessions !! k = Some session → id session = k.

(** The patches of the trace leave [id] alone. *)
Definition keeps_ids (trace : list (Z * op)) : Prop :=
  Forall (λ c, match c.2 with
               | Update _ data => p_id data = None
               | _ => True
               end) trace.

End WithAny.

Arguments op : clear implicits.

End SessionTrace.

(* ===================================================================== *)
(** ** Direct messages: the client methods and the route they call *)
(* ===================================================================== *)

Module DirectMessage.
Import JS MemeService.

(** What a method of the client throws: an error of the kinds above, or
    [new Error(v)] for a value [v] read from the response. *)
Inductive thrown :=
| Raised (e : js_error)
| ErrorFrom (v : option JSON.json).

(** The body of the request sent to [/api/meme/direct-message]. *)
Record Request := {
  url : string;
  req_message : jsstring;
  req_description : jsstring;
  req_memeName : jsstring
}.

(** A call driven to its end: the requests sent, the [console.error] calls,
    and the value returned ([None] for [undefined]) or the error thrown. *)
Record Call := {
  requests : list Request;
  logged : list (string * thrown);
  outcome : thrown + option JSON.json
}.

Definition HACKY_DESCRIPTION : jsstring :=
  str "Name: Hacky" ++ NL ++
  str "      Physical Appearance:" ++ NL ++
  str "      - Glowing neon-green matrix-style code running across face"
  ++ NL ++
  str "      - Always wearing a black hoodie with crypto symbols" ++ NL ++
  str "      - Digital glitch effects surrounding their form" ++ NL ++
  str "      - Holographic keyboard floating in front of them".

(** Can a parsed value be converted to a string?  ToString throws a
    [TypeError] on an object that has a member named [toString] (a parsed
    value is never callable), and on an array that holds such an object;
    every other parsed value, and [undefined], has a string form. *)
Fixpoint printable (v : JSON.json) : bool :=
  match v with
  | JSON.JObject members =>
      negb (existsb (λ kv, eqb_units kv.1 (str "toString")) members)
  | JSON.JArray items => forallb printable items
  | _ => true
  end.

Definition printable_value (v : option JSON.json) : bool :=
  match v with
  | Some v => printable v
  | None => true
  end.

(** What follows [await response.json()] inside the [try]: the value
    returned or the error thrown. [net] is what [fetch] followed by
    [response.json()] gives. *)
Definition read_reply (net : result JSON.json) : thrown + option JSON.json :=
  match net with
  | Throw e => inl (Raised e)
  | Ok data =>
      match JSON.get (str "success") data with
      | Throw e => inl (Raised e)
      | Ok success =>
          if negb (JSON.truthy success) then
            match JSON.get (str "error") data with
            | Throw e => inl (Raised e)
            | Ok error =>
                if printable_value error then inl (ErrorFrom error)
                else inl (Raised TypeError)
            end
          else
            match JSON.get (str "message") data with
            | Throw e => inl (Raised e)
            | Ok message => inr message
            end
      end
  end.

(** The [catch]: log under [label] and throw again. *)
Definition logged_of (label : string) (r : thrown + option JSON.json)
  : list (string * thrown) :=
  match r with
  | inl t => [(label, t)]
  | inr _ => []
  end.

(** [sendDirectMessage(message)] *)
Definition sendDirectMessage (this : MemeService) (message : jsstring)
    (net : result JSON.json) : Call :=
  if negb (bool_decide (is_Some (descripcionPersonaje this)))
     || eqb_units (descripcionTexto this) []
  then {| requests := []; logged := [];
          outcome := inl (Raised (Error "Must analyze image first")) |}
  else
    let r := read_reply net in
    {| requests := [{| url := "/api/meme/direct-message";
                       req_message := message;
                       req_description := descripcionTexto this;
                       req_memeName := memeName this |}];
       logged := logged_of "Error sending message:" r;
       outcome := r |}.

(** [sendHackyMessage(message)] *)
Definition sendHackyMessage (this : MemeService) (message : jsstring)
    (net : result JSON.json) : Call :=
  let r := read_reply net in
  {| requests := [{| url := "/api/meme/direct-message";
                     req_message := message;
                     req_description := HACKY_DESCRIPTION;
                     req_memeName := str "Hacky" |}];
     logged := logged_of "Error sending message to Hacky:" r;
     outcome := r |}.

(** *** app/api/meme/direct-message/route.ts *)

Inductive Payload :=
| ErrorText (text : string)
| ErrorOf (e : js_error)
| Reply (message : jsstring).

Record Response := { status : Z; payload : Payload }.

(** The [try] block of [POST]. [body] is what [req.json()] gives;
    [completion] is what [response.choices[0]?.message?.content] evaluates
    to, or what the call to the provider throws. The three fields are
    written into the prompt before the provider is called. *)
Definition POST_try (body : result JSON.json)
    (completion : result (option jsstring)) : result Response :=
  data <- body ;;
  message <- JSON.get (str "message") data ;;
  description <- JSON.get (str "description") data ;;
  memeName <- JSON.get (str "memeName") data ;;
  if negb (JSON.truthy message) || negb (JSON.truthy description)
     || negb (JSON.truthy memeName)
  then Ok {| status := 400;
             payload :=
               ErrorText "Message, description and memeName are required" |}
  else if negb (printable_value memeName && printable_value description
                && printable_value message)
  then Throw TypeError
  else
    reply <- completion ;;
    match reply with
    | None | Some [] => Throw (Error "No se recibió respuesta válida de OpenAI")
    | Some text => Ok {| status := 200; payload := Reply text |}
    end.

(** [POST(req)]: the [catch] answers 500 with the error. *)
Definition POST (body : result JSON.json)
    (completion : result (option jsstring)) : Response :=
  match POST_try body completion with
  | Ok response => response
  | Throw e => {| status := 500; payload := ErrorOf e |}
  end.

(** Does the body carry the three fields, each of them truthy? *)
Definition filled (data : JSON.json) : bool :=
  match JSON.get (str "message") data, JSON.get (str "description") data,
        JSON.get (str "memeName") data with
  | Ok message, Ok description, Ok memeName =>
      JSON.truthy message && JSON.truthy description && JSON.truthy memeName
  | _, _, _ => false
  end.

(** Does each of the three fields have a string form? *)
Definition printable_fields (data : JSON.json) : bool :=
  match JSON.get (str "message") data, JSON.get (str "description") data,
        JSON.get (str "memeName") data with
  | Ok message, Ok description, Ok memeName =>
      printable_value memeName && printable_value description
      && printable_value message
  | _, _, _ => false
  end.

(** *** The client and the route together *)

(** The body that [JSON.stringify] writes for a request and [req.json()]
    reads back. *)
Definition wire (request : Request) : JSON.json :=
  JSON.JObject [(str "message", JSON.JString (req_message request));
                (str "description", JSON.JString (req_description request));
                (str "memeName", JSON.JString (req_memeName request))].

(** What [response.json()] reads from a response of the route.
    [message_of e] is the text of [e.message]. *)
Definition body_of (message_of : js_error → jsstring) (response : Response)
  : JSON.json :=
  match payload response with
  | ErrorText text => JSON.JObject [(str "error", JSON.JString (str text))]
  | ErrorOf e => JSON.JObject [(str "error", JSON.JString (message_of e))]
  | Reply message =>
      JSON.JObject [(str "success", JSON.JBool true);
                    (str "message", JSON.JString message)]
  end.

(** The route answering the request that [sendDirectMessage] sends. *)
Definition served (message_of : js_error → jsstring) (this : MemeService)
    (message : jsstring) (completion : result (option jsstring))
  : result JSON.json :=
  Ok (body_of message_of
        (POST (Ok (wire {| url := "/api/meme/direct-message";
                           req_message := message;
                           req_description := descripcionTexto this;
                           req_memeName := memeName this |}))
              completion)).

End DirectMessage.

(* ===================================================================== *)
(** ** Shapes of turns and texts *)
(* ===================================================================== *)

Module TurnShape.
Import JS MemeService.

(** A turn of the fixed persona, or a turn of the character of [this]. *)
Definition attributed (this : MemeService) (t : Turn) : Prop :=
  (isHacky t = true ∧ speaker t = str "Hacky"
   ∧ turn_imageUrl t = str "/images/hacky.jpeg")
  ∨ (isHacky t = false ∧ speaker t = memeName this
     ∧ turn_imageUrl t = imageUrl this).

(** Neither the first nor the last code unit is white space. *)
Definition tidy (s : jsstring) : Prop :=
  (∀ c, head s = Some c → is_space c = false)
  ∧ (∀ c, last s = Some c → is_space c = false).

(** The number of line breaks of a text. *)
Definition line_breaks (text : jsstring) : nat :=
  length (filter (λ c, c = 10) text).

End TurnShape.

(* ===================================================================== *)
(** * Properties of the rate limiter *)
(* ===================================================================== *)

Module RateLimiterSpec.
Import RateLimiter.

#[local] Arguments rateLimit : simpl never.

Lemma stale_iff now e : stale now e = true ↔ windowMs < now - timestamp e.
Proof. unfold stale. apply Z.ltb_lt. Qed.

Lemma fresh_iff now e : stale now e = false ↔ now - timestamp e ≤ windowMs.
Proof. unfold stale. apply Z.ltb_ge. Qed.

(** The clean-up keeps exactly the entries that are not stale. *)
Lemma cleanup_lookup now (store : gmap string RateLimitEntry) k :
  cleanup now store !! k =
    match store !! k with
    | Some e => if stale now e then None else Some e
    | None => None
    end.
Proof.
  unfold cleanup. destruct (store !! k) as [e|] eqn:Hk.
  - destruct (stale now e) eqn:He.
    + apply map_lookup_filter_None. right. intros x Hx; simpl.
      rewrite Hk in Hx. injection Hx as <-. congruence.
    + apply map_lookup_filter_Some. split; [done | done].
  - apply map_lookup_filter_None. by left.
Qed.

Lemma rateLimit_lookup now ip (store : gmap string RateLimitEntry) k :
  (rateLimit now ip store).1 !! k =
    if decide (k = ip) then Some (bump now (cleanup now store !! ip))
    else cleanup now store !! k.
Proof.
  unfold rateLimit; simpl. destruct (decide (k = ip)) as [->|Hne].
  - by rewrite lookup_insert_eq.
  - by rewrite lookup_insert_ne.
Qed.

(** A call inside the window of [ip] leaves that window where it is and
    counts the call when it is one of [ip]. *)
Lemma rateLimit_in_window now k ip (store : gmap string RateLimitEntry) e :
  store !! ip = Some e →
  now - timestamp e ≤ windowMs →
  (rateLimit now k store).1 !! ip =
    Some {| count := count e + (if decide (k = ip) then 1 else 0);
            timestamp := timestamp e |}.
Proof.
  intros Hip Hin. apply fresh_iff in Hin.
  rewrite rateLimit_lookup.
  destruct (decide (ip = k)) as [<-|Hne].
  - rewrite cleanup_lookup, Hip, Hin. simpl. rewrite Hin.
    rewrite decide_True by done. done.
  - rewrite cleanup_lookup, Hip, Hin.
    rewrite decide_False by congruence.
    destruct e; simpl. by rewrite Z.add_0_r.
Qed.

Lemma calls_of_cons ip now k rest :
  calls_of ip ((now, k) :: rest) =
    (if decide (k = ip) then 1 else 0) + calls_of ip rest.
Proof.
  unfold calls_of. rewrite filter_cons. simpl.
  destruct (decide (k = ip)); simpl; lia.
Qed.

Lemma serve_cons now k rest (store : gmap string RateLimitEntry) :
  (serve ((now, k) :: rest) store).1 =
    (serve rest (rateLimit now k store).1).1.
Proof.
  cbn [serve]. destruct (rateLimit now k store) as [s1 ok].
  cbn [fst]. by destruct (serve rest s1).
Qed.

(** While every call arrives inside the window, the entry of [ip] counts the
    calls of [ip] and keeps its start. *)
Lemma serve_in_window ip trace : ∀ (store : gmap string RateLimitEntry) e,
  store !! ip = Some e →
  Forall (λ c, c.1 - timestamp e ≤ windowMs) trace →
  (serve trace store).1 !! ip =
    Some {| count := count e + calls_of ip trace; timestamp := timestamp e |}.
Proof.
  induction trace as [|[now k] rest IH]; intros store e Hip Hall.
  - simpl. rewrite Hip. destruct e; simpl. unfold calls_of; simpl.
    by rewrite Z.add_0_r.
  - apply Forall_cons in Hall as [Hnow Hrest]. simpl in Hnow.
    pose proof (rateLimit_in_window now k ip store e Hip Hnow) as Hstep.
    rewrite serve_cons, (IH _ _ Hstep Hrest), calls_of_cons. simpl.
    f_equal. f_equal. lia.
Qed.

(** The call that opens a window stores a count of one and is allowed. *)
Lemma rateLimit_opens ip (store : gmap string RateLimitEntry) t0 :
  opens_window store ip t0 →
  (rateLimit t0 ip store).1 !! ip = Some {| count := 1; timestamp := t0 |}
  ∧ (rateLimit t0 ip store).2 = true.
Proof.
  unfold opens_window. intros Hopen.
  assert (cleanup t0 store !! ip = None) as Hgone.
  { rewrite cleanup_lookup. destruct (store !! ip) as [e|]; [|done].
    apply stale_iff in Hopen. by rewrite Hopen. }
  split.
  - rewrite rateLimit_lookup, decide_True by done. by rewrite Hgone.
  - unfold rateLimit; simpl. by rewrite Hgone.
Qed.

(** The answer of a call is read off the entry it leaves behind. *)
Lemma rateLimit_answer now ip (store : gmap string RateLimitEntry) e :
  (rateLimit now ip store).1 !! ip = Some e →
  (rateLimit now ip store).2 = (count e <=? limit).
Proof.
  unfold rateLimit; simpl. rewrite lookup_insert_eq. by intros [= <-].
Qed.

(** C1. Under the default configuration (a window of 60,000 ms, at most 10
    requests), take any key [ip] and a call at [t0] that opens a window for
    it. That call is allowed. After it, let any calls arrive inside the
    window, of [ip] and of other keys; a further call of [ip] inside the
    window, which is call number [calls_of ip trace + 2] of the window, is
    allowed exactly when that number is at most 10: calls 1 to 10 are
    allowed and call 11 is refused. A call of [ip] after the window has
    elapsed starts a new window with count 1 and is allowed. *)
Theorem rateLimit_ten_per_window (ip : string)
    (store : gmap string RateLimitEntry) (t0 : Z)
    (trace : list (Z * string)) (t : Z) :
  opens_window store ip t0 →
  Forall (λ c, c.1 - t0 ≤ windowMs) trace →
  let opened := rateLimit t0 ip store in
  let during := (serve trace opened.1).1 in
  windowMs = 60000 ∧ limit = 10 ∧
  opened.2 = true ∧
  (t - t0 ≤ windowMs →
     (rateLimit t ip during).2 = bool_decide (calls_of ip trace + 2 ≤ 10)) ∧
  (windowMs < t - t0 →
     (rateLimit t ip during).2 = true ∧
     (rateLimit t ip during).1 !! ip = Some {| count := 1; timestamp := t |}).
Proof.
  intros Hopen Hall opened during.
  destruct (rateLimit_opens ip store t0 Hopen) as [Hentry Hok].
  pose proof (serve_in_window ip trace _ _ Hentry Hall) as Hduring.
  cbn [count timestamp] in Hduring.
  fold opened in Hduring. fold during in Hduring.
  split; [done|]. split; [done|]. split; [exact Hok|]. split.
  - intros Hin.
    pose proof (rateLimit_in_window t ip ip during _ Hduring Hin) as Hcall.
    rewrite decide_True in Hcall by done. simpl in Hcall.
    rewrite (rateLimit_answer _ _ _ _ Hcall). simpl. unfold limit.
    destruct (Z.leb_spec (1 + calls_of ip trace + 1) 10);
      [rewrite bool_decide_eq_true_2 | rewrite bool_decide_eq_false_2];
      (done || lia).
  - intros Hout. apply and_comm, rateLimit_opens.
    unfold opens_window. rewrite Hduring. simpl. exact Hout.
Qed.

(** Ten calls of one address within a second, with a call of another address
    among them: the eleventh is refused; a minute and a millisecond after the
    first call a new window starts. *)
Lemma rateLimit_ten_per_window_witness :
  (rateLimit 1000 "203.0.113.7" ∅).2 = true ∧
  (rateLimit 1900 "203.0.113.7"
     (serve [(1100, "203.0.113.7"); (1200, "203.0.113.7");
             (1250, "198.51.100.2"); (1300, "203.0.113.7");
             (1400, "203.0.113.7"); (1500, "203.0.113.7");
             (1600, "203.0.113.7"); (1700, "203.0.113.7");
             (1800, "203.0.113.7"); (1850, "203.0.113.7")]
        (rateLimit 1000 "203.0.113.7" ∅).1).1).2 = false ∧
  (rateLimit 61001 "203.0.113.7"
     (serve [(1100, "203.0.113.7"); (1200, "203.0.113.7");
             (1250, "198.51.100.2"); (1300, "203.0.113.7");
             (1400, "203.0.113.7"); (1500, "203.0.113.7");
             (1600, "203.0.113.7"); (1700, "203.0.113.7");
             (1800, "203.0.113.7"); (1850, "203.0.113.7")]
        (rateLimit 1000 "203.0.113.7" ∅).1).1).2 = true.
Proof.
  pose (trace := [(1100, "203.0.113.7"); (1200, "203.0.113.7");
             (1250, "198.51.100.2"); (1300, "203.0.113.7");
             (1400, "203.0.113.7"); (1500, "203.0.113.7");
             (1600, "203.0.113.7"); (1700, "203.0.113.7");
             (1800, "203.0.113.7"); (1850, "203.0.113.7")]
          : list (Z * string)).
  assert (Hopen : opens_window ∅ "203.0.113.7" 1000) by exact I.
  assert (Hall : Forall (λ c : Z * string, c.1 - 1000 ≤ windowMs) trace).
  { repeat constructor; vm_compute; discriminate. }
  destruct (rateLimit_ten_per_window "203.0.113.7" ∅ 1000 trace 1900
              Hopen Hall) as (_ & _ & H1 & H2 & _).
  destruct (rateLimit_ten_per_window "203.0.113.7" ∅ 1000 trace 61001
              Hopen Hall) as (_ & _ & _ & _ & H3).
  split; [exact H1|]. split.
  - etransitivity; [apply H2; vm_compute; discriminate | reflexivity].
  - apply H3. reflexivity.
Defined.

(** C9, as stated, fails at the boundary: a request that arrives exactly
    [windowMs] after the window started is still counted in that window. *)
Lemma window_boundary_counterexample :
  ¬ (∀ (store : gmap string RateLimitEntry) ip e now,
       store !! ip = Some e →
       timestamp e + windowMs ≤ now →
       (rateLimit now ip store).1 !! ip =
         Some {| count := 1; timestamp := now |}).
Proof.
  intros H.
  pose proof (H {["203.0.113.7" := {| count := 1; timestamp := 0 |}]}
                "203.0.113.7" {| count := 1; timestamp := 0 |} 60000
                (lookup_singleton_eq _ _)) as Hreset.
  assert ((rateLimit 60000 "203.0.113.7"
             {["203.0.113.7" := {| count := 1; timestamp := 0 |}]}).1
            !! "203.0.113.7" = Some {| count := 2; timestamp := 0 |})
    as Hcounted by (vm_compute; reflexivity).
  rewrite Hreset in Hcounted; [discriminate | vm_compute; discriminate].
Qed.

(** C9 (amended). The window of a key is the closed interval
    [[windowStart, windowStart + windowMs]]. Starting from an entry [e] of
    [ip], calls that arrive no later than [windowMs] after [timestamp e]
    leave the start of the window in place and raise the count by exactly
    the number of calls of [ip]. A call that arrives more than [windowMs]
    after the start finds the entry stale: made by [ip], it resets the entry
    to count 1 starting now; made by any other key, it evicts the entry. *)
Theorem window_is_closed_interval (ip : string)
    (store : gmap string RateLimitEntry) (e : RateLimitEntry)
    (trace : list (Z * string)) (now : Z) (k : string) :
  store !! ip = Some e →
  Forall (λ c, c.1 - timestamp e ≤ windowMs) trace →
  windowMs < now - timestamp e →
  let during := (serve trace store).1 in
  during !! ip =
    Some {| count := count e + calls_of ip trace; timestamp := timestamp e |}
  ∧ (rateLimit now k during).1 !! ip =
      if decide (k = ip) then Some {| count := 1; timestamp := now |}
      else None.
Proof.
  intros Hip Hall Hout during.
  pose proof (serve_in_window ip trace _ _ Hip Hall) as Hduring.
  fold during in Hduring. split; [exact Hduring|].
  rewrite rateLimit_lookup.
  assert (cleanup now during !! ip = None) as Hgone.
  { rewrite cleanup_lookup, Hduring. simpl.
    apply (stale_iff now {| count := count e + calls_of ip trace;
                            timestamp := timestamp e |}) in Hout.
    by rewrite Hout. }
  destruct (decide (ip = k)) as [<-|Hne].
  - rewrite !decide_True by done. by rewrite Hgone.
  - rewrite !decide_False by congruence. exact Hgone.
Qed.

Lemma window_is_closed_interval_witness :
  (serve [(60000, "203.0.113.7"); (60000, "198.51.100.2")]
         {["203.0.113.7" := {| count := 1; timestamp := 0 |}]}).1
    !! "203.0.113.7" = Some {| count := 2; timestamp := 0 |}
  ∧ (rateLimit 60001 "198.51.100.2"
       (serve [(60000, "203.0.113.7"); (60000, "198.51.100.2")]
          {["203.0.113.7" := {| count := 1; timestamp := 0 |}]}).1).1
    !! "203.0.113.7" = None.
Proof.
  apply (window_is_closed_interval "203.0.113.7"
           {["203.0.113.7" := {| count := 1; timestamp := 0 |}]}
           {| count := 1; timestamp := 0 |}
           [(60000, "203.0.113.7"); (60000, "198.51.100.2")]
           60001 "198.51.100.2").
  - reflexivity.
  - repeat constructor; vm_compute; discriminate.
  - reflexivity.
Defined.

End RateLimiterSpec.

(* ===================================================================== *)
(** * Properties of the session manager *)
(* ===================================================================== *)

Module SessionSpec.
Import SessionService.

Section WithAny.
Context {any : Type}.
Implicit Types sessions : gmap string (UserSession any).

(** C4. For every id, [getSession] returns a session and leaves it stored
    under that id; there is no failure and no not-found answer. When no
    session exists under the id, the one returned is fresh (that id,
    [lastActive] set to now, no analysis) and has been inserted; when one
    exists, it is returned and the store is unchanged. *)
Theorem getSession_lazy_create (now : Z) (sessionId : string) sessions :
  let result := getSession now sessionId sessions in
  result.1 !! sessionId = Some result.2 ∧
  (sessions !! sessionId = None →
     result.2 = {| id := sessionId; lastActive := now;
                   memeService := None; analysis := None |} ∧
     result.1 = <[sessionId := result.2]> sessions) ∧
  (∀ session, sessions !! sessionId = Some session →
     result.2 = session ∧ result.1 = sessions).
Proof.
  unfold getSession.
  destruct (sessions !! sessionId) as [session|] eqn:Hlook; simpl.
  - split; [done|]. split; [done|]. by intros ? [= <-].
  - split; [by rewrite lookup_insert_eq|]. split; [done|]. done.
Qed.

(** C7 (amended). [lastActive] is set to the current time when a session is
    created, by [createSession] or by [getSession] on an id that has no
    session, and when [updateSession] finds the session; [getSession] on an
    existing session returns it as it is and leaves the store unchanged. *)
Theorem lastActive_set_on_create_and_update (now : Z) (sessionId : string)
    (data : Patch any) sessions :
  (createSession now sessionId sessions).1 !! sessionId
    = Some {| id := sessionId; lastActive := now;
              memeService := None; analysis := None |} ∧
  (sessions !! sessionId = None →
     lastActive (getSession now sessionId sessions).2 = now) ∧
  (∀ session, sessions !! sessionId = Some session →
     getSession now sessionId sessions = (sessions, session) ∧
     ∃ updated, updateSession now sessionId data sessions !! sessionId
                  = Some updated ∧ lastActive updated = now).
Proof.
  split; [|split].
  - unfold createSession; simpl. by rewrite lookup_insert_eq.
  - intros Hnone. unfold getSession. by rewrite Hnone.
  - intros session Hsome. unfold getSession, updateSession. rewrite Hsome.
    split; [done|]. eexists. rewrite lookup_insert_eq. split; done.
Qed.

(** C8. [updateSession] on an id that has no session returns the store as it
    was. On an id that has one, the stored session becomes the old one with
    the fields that the patch names overwritten and [lastActive] set to now;
    a field that the patch does not name keeps its value; every other entry
    is untouched and the store keeps its size. *)
Theorem updateSession_frame (now : Z) (sessionId : string)
    (data : Patch any) sessions :
  let after := updateSession now sessionId data sessions in
  (sessions !! sessionId = None → after = sessions) ∧
  (∀ session, sessions !! sessionId = Some session →
     ∃ updated,
       after !! sessionId = Some updated ∧
       lastActive updated = now ∧
       id updated = default (id session) (p_id data) ∧
       memeService updated
         = default (memeService session) (p_memeService data) ∧
       analysis updated = default (analysis session) (p_analysis data) ∧
       (p_id data = None → id updated = id session) ∧
       (p_memeService data = None →
          memeService updated = memeService session) ∧
       (p_analysis data = None → analysis updated = analysis session)) ∧
  (∀ other, other ≠ sessionId → after !! other = sessions !! other) ∧
  size after = size sessions.
Proof.
  unfold updateSession.
  destruct (sessions !! sessionId) as [session|] eqn:Hlook; simpl.
  - split; [done|]. split; [|split].
    + intros ? [= <-]. eexists. rewrite lookup_insert_eq.
      split; [done|]. unfold merge; simpl.
      repeat split; try done; by intros ->.
    + intros other Hne. by rewrite lookup_insert_ne.
    + rewrite map_size_insert_Some; [done | by eexists].
  - split; [done|]. split; [done|]. split; done.
Qed.

End WithAny.

(** C7, as stated, fails: reading an existing session does not touch its
    [lastActive]. *)
Lemma getSession_refresh_counterexample :
  ¬ (∀ (now : Z) (sessionId : string)
       (sessions : gmap string (UserSession unit)) session,
       sessions !! sessionId = Some session →
       lastActive (getSession now sessionId sessions).2 = now).
Proof.
  intros H.
  pose proof (H 5000 "s1"
                {["s1" := {| id := "s1"; lastActive := 1000;
                             memeService := None; analysis := None |}]}
                _ (lookup_singleton_eq _ _)) as Hrefreshed.
  vm_compute in Hrefreshed. discriminate.
Qed.

Lemma getSession_lazy_create_witness :
  (getSession (any := unit) 7000 "never-created" ∅).2
    = {| id := "never-created"; lastActive := 7000;
         memeService := None; analysis := None |}.
Proof.
  destruct (getSession_lazy_create (any := unit) 7000 "never-created" ∅)
    as (_ & Hfresh & _).
  apply Hfresh. reflexivity.
Defined.

Lemma lastActive_set_on_create_and_update_witness :
  getSession (any := unit) 5000 "s1"
    {["s1" := {| id := "s1"; lastActive := 1000;
                 memeService := None; analysis := None |}]}
  = ({["s1" := {| id := "s1"; lastActive := 1000;
                  memeService := None; analysis := None |}]},
     {| id := "s1"; lastActive := 1000;
        memeService := None; analysis := None |}).
Proof.
  destruct (lastActive_set_on_create_and_update (any := unit) 5000 "s1"
           {| p_id := None; p_lastActive := None; p_memeService := None;
              p_analysis := Some (Some tt) |}
           {["s1" := {| id := "s1"; lastActive := 1000;
                        memeService := None; analysis := None |}]})
    as (_ & _ & Hkept).
  apply Hkept. reflexivity.
Defined.

Lemma updateSession_frame_witness :
  updateSession (any := unit) 5000 "gone"
    {| p_id := None; p_lastActive := None; p_memeService := None;
       p_analysis := Some (Some tt) |}
    {["s1" := {| id := "s1"; lastActive := 1000;
                 memeService := None; analysis := None |}]}
  = {["s1" := {| id := "s1"; lastActive := 1000;
                 memeService := None; analysis := None |}]}.
Proof.
  destruct (updateSession_frame (any := unit) 5000 "gone"
           {| p_id := None; p_lastActive := None; p_memeService := None;
              p_analysis := Some (Some tt) |}
           {["s1" := {| id := "s1"; lastActive := 1000;
                        memeService := None; analysis := None |}]})
    as (Hnoop & _).
  apply Hnoop. reflexivity.
Defined.

End SessionSpec.

(* ===================================================================== *)
(** * Properties of the conversation generator *)
(* ===================================================================== *)

Module MemeServiceSpec.
Import JS MemeService.
Import TextDecoder (unit_of_byte).

(** ** Lines *)

Lemma split_nonempty sep s : split sep s ≠ [].
Proof.
  destruct s as [|c r]; simpl; [done|].
  destruct (c =? sep); [done|]. by destruct (split sep r).
Qed.

(** A text without the separator is a single piece. *)
Lemma split_no_sep sep s : sep ∉ s → split sep s = [s].
Proof.
  induction s as [|c r IH]; intros Hno; simpl; [done|].
  apply not_elem_of_cons in Hno as [Hc Hr].
  destruct (Z.eqb_spec c sep) as [->|_]; [done|]. by rewrite (IH Hr).
Qed.

(** A line, its line break, and the rest. *)
Lemma split_line sep l r :
  sep ∉ l → split sep (l ++ sep :: r) = l :: split sep r.
Proof.
  induction l as [|c l IH]; intros Hno; simpl.
  - by rewrite Z.eqb_refl.
  - apply not_elem_of_cons in Hno as [Hc Hl].
    destruct (Z.eqb_spec c sep) as [->|_]; [done|]. by rewrite (IH Hl).
Qed.

(** The last piece holds no separator. *)
Lemma split_last_no_sep sep s :
  ∀ l, last (split sep s) = Some l → sep ∉ l.
Proof.
  induction s as [|c r IH]; intros l; simpl.
  - intros [= <-]. apply not_elem_of_nil.
  - destruct (Z.eqb_spec c sep) as [->|Hne].
    + pose proof (split_nonempty sep r).
      destruct (split sep r) as [|h t] eqn:Hs; [done|].
      rewrite last_cons_cons. apply IH.
    + destruct (split sep r) as [|h [|h' t]] eqn:Hs; simpl.
      * intros [= <-]. apply not_elem_of_cons. split; [congruence|].
        apply not_elem_of_nil.
      * intros [= <-]. apply not_elem_of_cons. split; [congruence|].
        by apply IH.
      * intros Hl. apply IH. exact Hl.
Qed.

(** The buffer that [read_loop] carries from one chunk to the next. *)
Lemma split_app sep a b :
  split sep (a ++ b) =
    removelast (split sep a)
    ++ split sep (default [] (last (split sep a)) ++ b).
Proof.
  induction a as [|c a IH]; simpl; [done|].
  destruct (Z.eqb_spec c sep) as [->|Hne].
  - pose proof (split_nonempty sep a).
    destruct (split sep a) as [|h t] eqn:Hs; [done|].
    rewrite last_cons_cons. rewrite IH. done.
  - rewrite IH.
    destruct (split sep a) as [|h [|h' t]] eqn:Hs; simpl.
    + destruct (Z.eqb_spec c sep); [done|].
      by destruct (split sep b).
    + destruct (Z.eqb_spec c sep); [done|]. done.
    + done.
Qed.

Lemma removelast_app_nonempty {A} (x y : list A) :
  y ≠ [] → removelast (x ++ y) = x ++ removelast y.
Proof. intros Hy. by apply removelast_app. Qed.

Lemma last_app_nonempty {A} (x y : list A) :
  y ≠ [] → last (x ++ y) = last y.
Proof.
  intros Hy. rewrite last_app. destruct (last y) eqn:Hl; [done|].
  apply last_None in Hl. done.
Qed.

Lemma complete_lines_app a b :
  complete_lines (a ++ b) = complete_lines a ++ complete_lines (pending a ++ b).
Proof.
  unfold complete_lines, pending. rewrite split_app.
  apply removelast_app_nonempty, split_nonempty.
Qed.

Lemma pending_app a b : pending (a ++ b) = pending (pending a ++ b).
Proof.
  unfold pending at 1 2. rewrite split_app.
  by rewrite last_app_nonempty by apply split_nonempty.
Qed.

Lemma complete_lines_pending a : complete_lines (pending a) = [].
Proof.
  unfold complete_lines, pending.
  destruct (last (split 10 a)) as [l|] eqn:Hl; simpl; [|done].
  by rewrite (split_no_sep _ _ (split_last_no_sep _ _ _ Hl)).
Qed.

Lemma complete_lines_line l r :
  10 ∉ l → complete_lines (l ++ 10 :: r) = l :: complete_lines r.
Proof.
  intros Hno. unfold complete_lines. rewrite (split_line _ _ _ Hno).
  pose proof (split_nonempty 10 r). simpl. by destruct (split 10 r).
Qed.

(** ** The loop reads lines, not chunks *)

Lemma read_loop_text this chunks ending : ∀ buffer,
  complete_lines buffer = [] →
  read_loop this buffer chunks ending =
    (flat_map (on_line this)
       (complete_lines (buffer ++ flat_map TextDecoder.decode chunks)),
     ending_outcome ending).
Proof.
  induction chunks as [|value rest IH]; intros buffer Hbuf.
  - simpl. rewrite app_nil_r, Hbuf. by destruct ending.
  - cbn [read_loop flat_map].
    change (default [] (last (split 10 (buffer ++ TextDecoder.decode value))))
      with (pending (buffer ++ TextDecoder.decode value)).
    change (removelast (split 10 (buffer ++ TextDecoder.decode value)))
      with (complete_lines (buffer ++ TextDecoder.decode value)).
    rewrite (IH _ (complete_lines_pending _)).
    rewrite app_assoc, (complete_lines_app (buffer ++ _)).
    by rewrite flat_map_app.
Qed.

Lemma guard_passes this :
  analysed this →
  negb (bool_decide (is_Some (descripcionPersonaje this)))
    || eqb_units (descripcionTexto this) [] = false.
Proof.
  intros [Hsome Htext]. rewrite bool_decide_eq_true_2 by done. simpl.
  by destruct (descripcionTexto this).
Qed.

(** For a stream that closes, the events are those of the complete lines of
    the decoded text, in order, and the generator returns. *)
Lemma generateConversation_text this topic chunks :
  analysed this →
  generateConversation this topic (Body chunks Closed) =
    {| requests := [{| url := "/api/meme/chat"; req_topic := topic;
                       req_description := descripcionTexto this;
                       req_memeName := memeName this |}];
       events := flat_map (on_line this)
                   (complete_lines (flat_map TextDecoder.decode chunks));
       outcome := Returned |}.
Proof.
  intros Hok. unfold generateConversation. rewrite (guard_passes _ Hok).
  by rewrite (read_loop_text this chunks Closed [] eq_refl).
Qed.

(** ** Chunks of ASCII text *)

Lemma run_ascii value :
  Forall (λ b, unit_of_byte b ≤ 127) value →
  TextDecoder.run TextDecoder.fresh value = map unit_of_byte value.
Proof.
  induction 1 as [|b rest Hb _ IH]; [done|].
  cbn [TextDecoder.run map].
  unfold TextDecoder.handler, TextDecoder.lead.
  cbn [TextDecoder.bytes_needed TextDecoder.fresh].
  apply Z.leb_le in Hb. rewrite Z.eqb_refl, Hb. cbn [app]. by rewrite IH.
Qed.

Lemma units_ascii (l : list Z) :
  Forall (λ c, c ≤ 127) l → flat_map TextDecoder.units l = l.
Proof.
  induction 1 as [|c rest Hc _ IH]; [done|].
  cbn [flat_map]. rewrite IH. unfold TextDecoder.units.
  destruct (Z.ltb_spec c 65536); [done | lia].
Qed.

(** On a chunk of ASCII bytes the decoder is the identity. *)
Lemma decode_ascii value :
  Forall (λ b, unit_of_byte b ≤ 127) value →
  TextDecoder.decode value = map unit_of_byte value.
Proof.
  intros Hascii. unfold TextDecoder.decode. rewrite (run_ascii _ Hascii).
  assert (Forall (λ c, c ≤ 127) (map unit_of_byte value)) as Hsmall.
  { by apply Forall_map. }
  assert (TextDecoder.strip_BOM (map unit_of_byte value)
          = map unit_of_byte value) as ->.
  { destruct Hsmall as [|c rest Hc _]; [done|]. simpl.
    destruct (Z.eqb_spec c 65279); [lia | done]. }
  by apply units_ascii.
Qed.

Lemma decode_ascii_chunks chunks :
  Forall (Forall (λ b, unit_of_byte b ≤ 127)) chunks →
  flat_map TextDecoder.decode chunks = map unit_of_byte (concat chunks).
Proof.
  induction 1 as [|value rest Hv _ IH]; [done|].
  simpl. by rewrite map_app, IH, (decode_ascii _ Hv).
Qed.

(** Two streams of ASCII bytes with the same bytes, cut into chunks in any
    two ways (empty chunks included), give the same run. *)
Lemma ascii_stream_chunking this topic chunks1 chunks2 ending :
  Forall (Forall (λ b, unit_of_byte b ≤ 127)) chunks1 →
  Forall (Forall (λ b, unit_of_byte b ≤ 127)) chunks2 →
  concat chunks1 = concat chunks2 →
  generateConversation this topic (Body chunks1 ending) =
  generateConversation this topic (Body chunks2 ending).
Proof.
  intros H1 H2 Hsame. unfold generateConversation.
  destruct (negb _ || _); [done|].
  rewrite !(read_loop_text _ _ _ [] eq_refl). simpl.
  by rewrite (decode_ascii_chunks _ H1), (decode_ascii_chunks _ H2), Hsame.
Qed.

(** ** The claims *)

(** C2. The claim fails on the code for a stream whose chunk boundary falls
    inside a multi-byte UTF-8 character. The line
    [data: {"message":"Pepe: café"}] followed by a line break, given as one
    chunk, yields the message [café]; the same bytes cut between the two
    bytes of [é] yield [caf] followed by two U+FFFD, because each chunk is
    decoded on its own. The two-chunk example of the claim, which is ASCII,
    does yield exactly one turn with speaker [Hacky] and message [gm]. *)
Theorem chunk_boundary_inside_character :
  let head := ascii_chunk "data: {" ++ dq ++ ascii_chunk "message" ++ dq
              ++ ascii_chunk ":" ++ dq ++ ascii_chunk "Pepe: caf" in
  let tail := dq ++ ascii_chunk "}" ++ [x0a] in
  let whole := [head ++ [xc3; xa9] ++ tail] in
  let cut := [head ++ [xc3]; [xa9] ++ tail] in
  concat whole = concat cut ∧
  turns (events (generateConversation pepe (str "gm") (Body whole Closed)))
    = [{| speaker := str "Pepe"; message := str "caf" ++ [233];
          turn_imageUrl := str "blob:pepe"; isHacky := false |}] ∧
  turns (events (generateConversation pepe (str "gm") (Body cut Closed)))
    = [{| speaker := str "Pepe"; message := str "caf" ++ [65533; 65533];
          turn_imageUrl := str "blob:pepe"; isHacky := false |}] ∧
  events (generateConversation pepe (str "gm")
            (Body [ascii_chunk "data: {" ++ dq ++ ascii_chunk "mess";
                   ascii_chunk "age" ++ dq ++ ascii_chunk ":" ++ dq
                   ++ ascii_chunk "Hacky: gm" ++ dq ++ ascii_chunk "}"
                   ++ [x0a]] Closed))
    = [Yield {| speaker := str "Hacky"; message := str "gm";
                turn_imageUrl := str "/images/hacky.jpeg";
                isHacky := true |}].
Proof. vm_compute. repeat split. Qed.

(** C3. When the service holds no character analysis, [generateConversation]
    throws the error ['Must analyze image first'] and sends no request,
    whatever the network would have answered. *)
Theorem generateConversation_requires_analysis (this : MemeService)
    (topic : jsstring) (net : network) :
  descripcionPersonaje this = None →
  generateConversation this topic net =
    {| requests := []; events := [];
       outcome := Threw (Error "Must analyze image first") |}.
Proof.
  intros Hnone. unfold generateConversation. by rewrite Hnone.
Qed.

Lemma generateConversation_requires_analysis_witness :
  generateConversation new (str "gm")
    (Body [ascii_chunk "data: {}" ++ [x0a]] Closed) =
    {| requests := []; events := [];
       outcome := Threw (Error "Must analyze image first") |}
  ∧ length (requests (generateConversation new (str "gm") NoBody)) = 0%nat.
Proof.
  split.
  - apply generateConversation_requires_analysis. reflexivity.
  - rewrite generateConversation_requires_analysis; reflexivity.
Defined.

(** C5. Take a line with the ["data: "] prefix whose payload parses and
    carries a non-empty string as [message]. When the message starts with
    ["Hacky:"], whatever the name of the active character, the turn has
    speaker ["Hacky"] and the message without its first 6 code units,
    trimmed. Otherwise the turn has the name of the active character as
    speaker and the message without its first (length of the name) + 1 code
    units, trimmed. *)
Theorem speaker_attribution (this : MemeService) (line : jsstring)
    (data : JSON.json) (text : jsstring) :
  startsWith (str "data: ") line = true →
  JSON.parse (slice 5 line) = Ok data →
  JSON.get (str "message") data = Ok (Some (JSON.JString text)) →
  text ≠ [] →
  (startsWith (str "Hacky:") text = true →
     on_line this line =
       [Yield {| speaker := str "Hacky";
                 message := trim (slice 6 text);
                 turn_imageUrl := str "/images/hacky.jpeg";
                 isHacky := true |}]) ∧
  (startsWith (str "Hacky:") text = false →
     on_line this line =
       [Yield {| speaker := memeName this;
                 message := trim (slice (length (memeName this) + 1) text);
                 turn_imageUrl := imageUrl this;
                 isHacky := false |}]).
Proof.
  intros Hprefix Hparse Hget Htext.
  unfold on_line, parse_line. rewrite Hprefix, Hparse. cbn [bind].
  rewrite Hget. cbn [bind JSON.truthy].
  assert (eqb_units text [] = false) as -> by (by destruct text).
  cbn [negb startsWith_of bind].
  split; intros ->; reflexivity.
Qed.

(** The example of C5: persona Pepe and the line
    [data: {"message":"Pepe: to the moon"}]. *)
Lemma speaker_attribution_witness :
  on_line pepe (str "data: {" ++ DQ ++ str "message" ++ DQ ++ str ":" ++ DQ
                ++ str "Pepe: to the moon" ++ DQ ++ str "}")
  = [Yield {| speaker := str "Pepe"; message := str "to the moon";
              turn_imageUrl := str "blob:pepe"; isHacky := false |}].
Proof.
  destruct (speaker_attribution pepe
              (str "data: {" ++ DQ ++ str "message" ++ DQ ++ str ":" ++ DQ
               ++ str "Pepe: to the moon" ++ DQ ++ str "}")
              (JSON.JObject
                 [(str "message", JSON.JString (str "Pepe: to the moon"))])
              (str "Pepe: to the moon"))
    as [_ Hname].
  - reflexivity.
  - vm_compute. reflexivity.
  - reflexivity.
  - discriminate.
  - etransitivity; [apply Hname; reflexivity | vm_compute; reflexivity].
Defined.

(** C6. A line with the ["data: "] prefix whose payload [JSON.parse] rejects
    produces a [console.error] and nothing else: no turn and no throw. In a
    stream that closes, wherever the chunk boundaries fall, the lines before
    it and the lines after it produce what they produce without it, and the
    generator returns. *)
Theorem malformed_line_dropped (this : MemeService) (topic : jsstring)
    (chunks : list (list byte)) (before bad after : jsstring) (e : js_error) :
  analysed this →
  flat_map TextDecoder.decode chunks = before ++ bad ++ NL ++ after →
  pending before = [] →
  10 ∉ bad →
  startsWith (str "data: ") bad = true →
  JSON.parse (slice 5 bad) = Throw e →
  let run := generateConversation this topic (Body chunks Closed) in
  on_line this bad = [ConsoleError "Error parsing JSON:" e] ∧
  outcome run = Returned ∧
  events run =
    flat_map (on_line this) (complete_lines before)
    ++ [ConsoleError "Error parsing JSON:" e]
    ++ flat_map (on_line this) (complete_lines after) ∧
  turns (events run) =
    turns (flat_map (on_line this) (complete_lines before))
    ++ turns (flat_map (on_line this) (complete_lines after)).
Proof.
  intros Hok Htext Hbefore Hno Hprefix Hparse run.
  assert (on_line this bad = [ConsoleError "Error parsing JSON:" e]) as Hbad.
  { unfold on_line, parse_line. by rewrite Hprefix, Hparse. }
  assert (events run =
            flat_map (on_line this) (complete_lines before)
            ++ [ConsoleError "Error parsing JSON:" e]
            ++ flat_map (on_line this) (complete_lines after)) as Hevents.
  { unfold run. rewrite (generateConversation_text _ _ _ Hok). cbn [events].
    rewrite Htext, complete_lines_app, Hbefore. cbn [app].
    unfold NL. cbn [app]. rewrite (complete_lines_line _ _ Hno).
    rewrite flat_map_app. cbn [flat_map]. by rewrite Hbad. }
  split; [exact Hbad|]. split.
  - unfold run. by rewrite (generateConversation_text _ _ _ Hok).
  - split; [exact Hevents|]. rewrite Hevents. unfold turns.
    rewrite !flat_map_app. reflexivity.
Qed.

(** The example of C6: the line [data: {not json], cut in two by a chunk
    boundary, followed by a valid line. *)
Lemma malformed_line_dropped_witness :
  JSON.parse (slice 5 (str "data: {not json")) = Throw SyntaxError ∧
  outcome (generateConversation pepe (str "gm")
             (Body [ascii_chunk "data: {not";
                    ascii_chunk " json" ++ [x0a] ++ ascii_chunk "data: {"
                    ++ dq ++ ascii_chunk "message" ++ dq ++ ascii_chunk ":"
                    ++ dq ++ ascii_chunk "Hacky: gm" ++ dq ++ ascii_chunk "}"
                    ++ [x0a]] Closed)) = Returned ∧
  turns (events (generateConversation pepe (str "gm")
             (Body [ascii_chunk "data: {not";
                    ascii_chunk " json" ++ [x0a] ++ ascii_chunk "data: {"
                    ++ dq ++ ascii_chunk "message" ++ dq ++ ascii_chunk ":"
                    ++ dq ++ ascii_chunk "Hacky: gm" ++ dq ++ ascii_chunk "}"
                    ++ [x0a]] Closed)))
  = [{| speaker := str "Hacky"; message := str "gm";
        turn_imageUrl := str "/images/hacky.jpeg"; isHacky := true |}].
Proof.
  assert (JSON.parse (slice 5 (str "data: {not json")) = Throw SyntaxError)
    as Hparse by (vm_compute; reflexivity).
  destruct (malformed_line_dropped pepe (str "gm")
              [ascii_chunk "data: {not";
               ascii_chunk " json" ++ [x0a] ++ ascii_chunk "data: {"
               ++ dq ++ ascii_chunk "message" ++ dq ++ ascii_chunk ":"
               ++ dq ++ ascii_chunk "Hacky: gm" ++ dq ++ ascii_chunk "}"
               ++ [x0a]]
              [] (str "data: {not json")
              (str "data: {" ++ DQ ++ str "message" ++ DQ ++ str ":" ++ DQ
               ++ str "Hacky: gm" ++ DQ ++ str "}" ++ NL)
              SyntaxError)
    as (_ & Hreturned & _ & Hturns).
  - split; [by eexists | discriminate].
  - vm_compute. reflexivity.
  - reflexivity.
  - apply (bool_decide_unpack _). vm_compute. exact I.
  - reflexivity.
  - exact Hparse.
  - split; [exact Hparse|]. split; [exact Hreturned|].
    etransitivity; [exact Hturns | vm_compute; reflexivity].
Defined.

End MemeServiceSpec.

(* ===================================================================== *)
(** * Properties of the image-analysis route *)
(* ===================================================================== *)

Module AnalyzeRouteSpec.
Import JS SessionService AnalyzeRoute.

Lemma present_Some (s : string) : s ≠ EmptyString → present (Some s) = true.
Proof.
  intros Hne. unfold present. destruct (String.eqb_spec s EmptyString); done.
Qed.

(** C10. [getSession] returns a session for every id, so the check that
    follows it in [POST] never fires: no input makes the route answer 401.
    A request with a non-empty session id, a file and a name, for which the
    provider returns text that parses, is answered 200 and has its analysis
    stored, and this also holds for an id that never had a session, which
    the route creates on the way. *)
Theorem invalid_session_branch_unreachable (t_get t_update : Z) (form : Form)
    (completion : result (option jsstring))
    (sessions : gmap string (UserSession JSON.json)) :
  let answer := POST t_get t_update form completion sessions in
  (∀ sid, (getSession t_get sid sessions).1 !! sid
            = Some (getSession t_get sid sessions).2
          ∧ truthy_object (getSession t_get sid sessions).2 = true) ∧
  status answer.2 ≠ 401 ∧
  (∀ sid upload name text analysis,
     sessionId form = Some sid → sid ≠ EmptyString →
     file form = Some upload →
     memeName form = Some name → name ≠ EmptyString →
     completion = Ok (Some text) → text ≠ [] →
     JSON.parse text = Ok analysis →
     answer.2 = {| status := 200; payload := Success analysis |} ∧
     (sessions !! sid = None →
        answer.1 !! sid =
          Some {| id := sid; lastActive := t_update;
                  memeService := None; analysis := Some analysis |})).
Proof.
  intros answer. split; [|split].
  - intros sid. split; [|done]. unfold getSession.
    destruct (sessions !! sid) eqn:Hlook; simpl; [done|].
    by rewrite lookup_insert_eq.
  - unfold answer, POST, POST_try.
    destruct (present (sessionId form)); simpl; [|done].
    destruct (getSession _ _ sessions) as [sessions1 session]. simpl.
    destruct (negb _ || negb _); simpl; [done|].
    destruct completion as [[[|c text]|]|e]; simpl; try done.
    by destruct (JSON.parse (c :: text)).
  - intros sid upload name text analysis Hsid Hsid' Hfile Hname Hname'
      Hcompletion Htext Hparse.
    unfold answer, POST, POST_try.
    rewrite Hsid, (present_Some _ Hsid'), Hfile, Hname, (present_Some _ Hname').
    rewrite Hcompletion. cbn [negb].
    change (default EmptyString (Some sid)) with sid.
    destruct (getSession t_get sid sessions) as [sessions1 session] eqn:Hget.
    cbn [truthy_object negb].
    rewrite bool_decide_eq_true_2 by by eexists. cbn [negb orb].
    destruct text as [|c text]; [done|]. rewrite Hparse.
    split; [done|]. intros Hnone. cbn [fst].
    unfold getSession in Hget. rewrite Hnone in Hget.
    injection Hget as <- <-.
    unfold updateSession. rewrite lookup_insert_eq.
    by rewrite lookup_insert_eq.
Qed.

(** A session id that was never created, on an empty store. *)
Lemma invalid_session_branch_unreachable_witness :
  (POST 1000 2000
     {| file := Some {| file_type := "image/png"; file_bytes := [x89; x50] |};
        memeName := Some "Pepe"%string;
        sessionId := Some "never-created"%string |}
     (Ok (Some (str "{}"))) ∅).2
  = {| status := 200; payload := Success (JSON.JObject []) |}.
Proof.
  destruct (invalid_session_branch_unreachable 1000 2000
     {| file := Some {| file_type := "image/png"; file_bytes := [x89; x50] |};
        memeName := Some "Pepe"%string;
        sessionId := Some "never-created"%string |}
     (Ok (Some (str "{}"))) ∅) as (_ & _ & Haccepted).
  apply (Haccepted "never-created"%string
           {| file_type := "image/png"; file_bytes := [x89; x50] |}
           "Pepe"%string (str "{}") (JSON.JObject []));
    try reflexivity; discriminate.
Defined.

End AnalyzeRouteSpec.

(* ===================================================================== *)
(** * Further properties of the rate limiter and of the middleware *)
(* ===================================================================== *)

Module RateLimiterMore.
Import RateLimiter RateLimiterTrace Middleware.
Import RateLimiterSpec (cleanup_lookup, rateLimit_lookup, stale_iff,
  fresh_iff, serve_cons, serve_in_window, rateLimit_in_window,
  rateLimit_answer, rateLimit_opens, calls_of_cons).

#[local] Arguments rateLimit : simpl never.

(** X1. After a call at [now], no entry of the store is stale: every window
    that is left started at most [windowMs] before [now]. *)
Theorem no_stale_entry_after_call (now : Z) (ip : string)
    (store : gmap string RateLimitEntry) (k : string) (e : RateLimitEntry) :
  (rateLimit now ip store).1 !! k = Some e →
  now - timestamp e ≤ windowMs.
Proof.
  rewrite rateLimit_lookup. destruct (decide (k = ip)) as [->|Hne].
  - intros [= <-]. rewrite cleanup_lookup.
    destruct (store !! ip) as [old|]; simpl.
    + destruct (stale now old) eqn:Hold; simpl.
      * unfold windowMs. lia.
      * rewrite Hold. simpl. by apply fresh_iff.
    + unfold windowMs. lia.
  - rewrite cleanup_lookup. destruct (store !! k) as [old|]; [|done].
    destruct (stale now old) eqn:Hold; [done|].
    intros [= <-]. by apply fresh_iff.
Qed.

Lemma no_stale_entry_after_call_witness :
  70000 - 20000 ≤ windowMs.
Proof.
  apply (no_stale_entry_after_call 70000 "198.51.100.2"
           {["203.0.113.7" := {| count := 3; timestamp := 20000 |};
             "192.0.2.1" := {| count := 9; timestamp := 5000 |}]}
           "203.0.113.7" {| count := 3; timestamp := 20000 |}).
  vm_compute. reflexivity.
Defined.

Lemma accounted_step seen now k (store : gmap string RateLimitEntry) :
  accounted seen store →
  accounted (seen ++ [(now, k)]) (rateLimit now k store).1.
Proof.
  intros Hacc k' e'. rewrite rateLimit_lookup.
  assert (∀ j, calls_of j (seen ++ [(now, k)])
               = calls_of j seen + (if decide (k = j) then 1 else 0)) as Hcalls.
  { intros j. unfold calls_of. rewrite filter_app, length_app. simpl.
    rewrite filter_cons, filter_nil. simpl.
    destruct (decide (k = j)); simpl; lia. }
  destruct (decide (k' = k)) as [->|Hne].
  - intros [= <-]. rewrite Hcalls, decide_True by done.
    rewrite cleanup_lookup.
    destruct (store !! k) as [old|] eqn:Hold; simpl.
    + destruct (Hacc _ _ Hold) as [[Hlo Hhi] Hin].
      destruct (stale now old); simpl.
      * split; [lia|]. apply elem_of_app. right. by apply list_elem_of_singleton.
      * destruct (stale now old); simpl.
        -- split; [lia|]. apply elem_of_app. right.
           by apply list_elem_of_singleton.
        -- split; [lia|]. apply elem_of_app. by left.
    + assert (0 ≤ calls_of k seen) by (unfold calls_of; lia).
      split; [lia|]. apply elem_of_app. right. by apply list_elem_of_singleton.
  - rewrite cleanup_lookup. destruct (store !! k') as [old|] eqn:Hold; [|done].
    destruct (stale now old); [done|]. intros [= <-].
    destruct (Hacc _ _ Hold) as [[Hlo Hhi] Hin].
    rewrite Hcalls, decide_False by congruence.
    split; [lia|]. apply elem_of_app. by left.
Qed.

Lemma accounted_serve trace : ∀ seen (store : gmap string RateLimitEntry),
  accounted seen store → accounted (seen ++ trace) (serve trace store).1.
Proof.
  induction trace as [|[now k] rest IH]; intros seen store Hacc.
  - by rewrite app_nil_r.
  - rewrite serve_cons, (cons_middle _ seen rest), app_assoc.
    apply IH, accounted_step, Hacc.
Qed.

(** X2. Starting from the empty store, the counter of a key never exceeds
    the number of calls that key has made, is at least one, and the start
    of its window is the time of one of its calls. *)
Theorem counters_are_accounted_for (trace : list (Z * string)) (k : string)
    (e : RateLimitEntry) :
  (serve trace ∅).1 !! k = Some e →
  1 ≤ count e ≤ calls_of k trace ∧ (timestamp e, k) ∈ trace.
Proof.
  apply (accounted_serve trace [] ∅). intros ? ? Hempty.
  by rewrite lookup_empty in Hempty.
Qed.

Lemma counters_are_accounted_for_witness :
  1 ≤ 2 ≤ calls_of "203.0.113.7"
            [(0, "203.0.113.7"); (10, "198.51.100.2"); (70000, "203.0.113.7");
             (70005, "203.0.113.7")]
  ∧ (70000, "203.0.113.7"%string)
      ∈ [(0, "203.0.113.7"%string); (10, "198.51.100.2"%string);
         (70000, "203.0.113.7"%string); (70005, "203.0.113.7"%string)].
Proof.
  apply (counters_are_accounted_for
           [(0, "203.0.113.7"); (10, "198.51.100.2"); (70000, "203.0.113.7");
            (70005, "203.0.113.7")]
           "203.0.113.7" {| count := 2; timestamp := 70000 |}).
  vm_compute. reflexivity.
Defined.

(** X3. A key that has been refused stays refused for the rest of its
    window: whatever calls arrive inside the window, of this key or of
    others, the next call of the key inside the window is refused too. *)
Theorem refused_until_window_ends (t : Z) (ip : string)
    (store : gmap string RateLimitEntry) (trace : list (Z * string))
    (t' : Z) (e : RateLimitEntry) :
  (rateLimit t ip store).2 = false →
  (rateLimit t ip store).1 !! ip = Some e →
  Forall (λ c, c.1 - timestamp e ≤ windowMs) trace →
  t' - timestamp e ≤ windowMs →
  (rateLimit t' ip (serve trace (rateLimit t ip store).1).1).2 = false.
Proof.
  intros Hrefused Hentry Hall Hin.
  rewrite (rateLimit_answer _ _ _ _ Hentry) in Hrefused.
  apply Z.leb_gt in Hrefused.
  pose proof (serve_in_window ip trace _ _ Hentry Hall) as Hduring.
  pose proof (rateLimit_in_window t' ip ip _ _ Hduring Hin) as Hcall.
  rewrite decide_True in Hcall by done.
  rewrite (rateLimit_answer _ _ _ _ Hcall). simpl.
  apply Z.leb_gt. assert (0 ≤ calls_of ip trace) by (unfold calls_of; lia).
  lia.
Qed.

Lemma refused_until_window_ends_witness :
  (rateLimit 60500 "203.0.113.7"
     (serve [(30000, "198.51.100.2"); (60000, "203.0.113.7")]
        (rateLimit 2000 "203.0.113.7"
           {["203.0.113.7" := {| count := 10; timestamp := 1000 |}]}).1).1).2
  = false.
Proof.
  apply (refused_until_window_ends 2000 "203.0.113.7"
           {["203.0.113.7" := {| count := 10; timestamp := 1000 |}]}
           [(30000, "198.51.100.2"); (60000, "203.0.113.7")] 60500
           {| count := 11; timestamp := 1000 |}).
  - vm_compute. reflexivity.
  - vm_compute. reflexivity.
  - repeat constructor; vm_compute; discriminate.
  - vm_compute. discriminate.
Defined.

Lemma same_window_cleanup t now ip (s s' : gmap string RateLimitEntry) :
  t ≤ now → same_window t ip s s' →
  cleanup now s !! ip = cleanup now s' !! ip.
Proof.
  unfold same_window. intros Hle Hsame. rewrite !cleanup_lookup.
  destruct (s !! ip) as [e|], (s' !! ip) as [e'|]; try done.
  - by subst.
  - assert (stale now e' = true) as -> by (apply stale_iff; lia). done.
Qed.

Lemma answers_of_only ip trace : ∀ t (s s' : gmap string RateLimitEntry),
  clock_from t trace → same_window t ip s s' →
  answers_of ip trace s = (serve (only ip trace) s').2.
Proof.
  induction trace as [|[now k] rest IH]; intros t s s' Hclock Hsame; [done|].
  destruct Hclock as [Hle Hclock].
  pose proof (same_window_cleanup t now ip s s' Hle Hsame) as Hclean.
  cbn [answers_of]. unfold only. rewrite filter_cons. cbn [snd].
  destruct (decide (k = ip)) as [->|Hne].
  - cbn [serve]. fold (only ip rest).
    assert (same_window now ip (rateLimit now ip s).1 (rateLimit now ip s').1)
      as Hnext.
    { unfold same_window. rewrite !rateLimit_lookup, !decide_True by done.
      by rewrite Hclean. }
    assert ((rateLimit now ip s).2 = (rateLimit now ip s').2) as Hok.
    { unfold rateLimit; simpl. by rewrite Hclean. }
    specialize (IH now _ _ Hclock Hnext).
    destruct (rateLimit now ip s) as [s1 ok].
    destruct (rateLimit now ip s') as [s1' ok']. simpl in *. subst ok'.
    rewrite IH. by destruct (serve (only ip rest) s1').
  - fold (only ip rest).
    assert (same_window now ip (rateLimit now k s).1 s') as Hnext.
    { unfold same_window. rewrite rateLimit_lookup, decide_False by congruence.
      rewrite cleanup_lookup. unfold same_window in Hsame.
      destruct (s !! ip) as [e|] eqn:Hs, (s' !! ip) as [e'|] eqn:Hs';
        try done.
      - subst e'. destruct (stale now e) eqn:He; [|done].
        by apply stale_iff.
      - lia. }
    specialize (IH now _ _ Hclock Hnext).
    by destruct (rateLimit now k s) as [s1 ok].
Qed.

(** X4. While the clock does not run backwards, the answers a key gets do
    not depend on the traffic of other keys: they are the answers it would
    get if its calls were the only ones. *)
Theorem answers_ignore_other_keys (ip : string) (trace : list (Z * string))
    (t : Z) (store : gmap string RateLimitEntry) :
  clock_from t trace →
  answers_of ip trace store = (serve (only ip trace) store).2.
Proof.
  intros Hclock. apply (answers_of_only ip trace t); [done|].
  unfold same_window. by destruct (store !! ip).
Qed.

Lemma answers_ignore_other_keys_witness :
  answers_of "203.0.113.7"
    [(0, "203.0.113.7"); (50000, "198.51.100.2"); (59000, "203.0.113.7");
     (120000, "198.51.100.2"); (120001, "203.0.113.7")] ∅
  = [true; true; true].
Proof.
  etransitivity.
  - apply (answers_ignore_other_keys "203.0.113.7"
             [(0, "203.0.113.7"); (50000, "198.51.100.2");
              (59000, "203.0.113.7"); (120000, "198.51.100.2");
              (120001, "203.0.113.7")] 0 ∅).
    vm_compute. repeat split; discriminate.
  - vm_compute. reflexivity.
Defined.

(** The state that the middleware leaves is the state of the rate limiter
    after the calls of the API requests. *)
Lemma handle_store requests : ∀ (store : gmap string RateLimitEntry),
  (handle requests store).1 = (serve (api_calls requests) store).1.
Proof.
  induction requests as [|[now request] rest IH]; intros store; [done|].
  cbn [handle api_calls]. unfold middleware.
  destruct (is_api request).
  - rewrite serve_cons.
    destruct (rateLimit now (client request) store) as [s1 ok]. simpl.
    specialize (IH s1).
    destruct ok; simpl; destruct (handle rest s1); simpl in *; exact IH.
  - specialize (IH store). destruct (handle rest store); simpl in *. exact IH.
Qed.

(** X5. The quota is per client address and counts API requests only. Once
    an API request has opened a window for its client (the address, or
    127.0.0.1 for every request without one), and while requests of any
    kind arrive inside the window, a request outside [/api/] is passed on
    and leaves the store alone, and an API request of that client is
    answered 429 exactly when it is past the tenth API request of the
    client in the window. *)
Theorem middleware_quota (first : NextRequest) (t0 : Z)
    (store : gmap string RateLimitEntry)
    (between : list (Z * NextRequest)) (t : Z) (request : NextRequest) :
  is_api first = true →
  opens_window store (client first) t0 →
  Forall (λ c, c.1 - t0 ≤ windowMs) between →
  t - t0 ≤ windowMs →
  let before := (handle ((t0, first) :: between) store).1 in
  (is_api request = false → middleware t request before = (before, Next)) ∧
  (is_api request = true → client request = client first →
     (middleware t request before).2 =
       if bool_decide (calls_of (client first) (api_calls between) + 2 ≤ 10)
       then Next else Json 429 "Demasiadas solicitudes").
Proof.
  intros Hapi Hopen Hall Hin before. split.
  - intros Hnot. unfold middleware. by rewrite Hnot.
  - intros Hyes Hsame. unfold middleware. rewrite Hyes, Hsame.
    assert (before !! client first =
              Some {| count := 1 + calls_of (client first) (api_calls between);
                      timestamp := t0 |}) as Hbefore.
    { unfold before. rewrite handle_store. cbn [api_calls]. rewrite Hapi.
      rewrite serve_cons.
      destruct (rateLimit_opens _ _ _ Hopen) as [Hentry _].
      apply (serve_in_window _ _ _ _ Hentry).
      clear -Hall. induction between as [|[now r] rest IH]; [constructor|].
      apply Forall_cons in Hall as [Hnow Hrest]. cbn [api_calls].
      destruct (is_api r); [constructor|]; auto. }
    pose proof (rateLimit_in_window t (client first) (client first)
                  before _ Hbefore Hin) as Hcall.
    rewrite decide_True in Hcall by done.
    pose proof (rateLimit_answer _ _ _ _ Hcall) as Hanswer.
    destruct (rateLimit t (client first) before) as [s1 ok].
    simpl in Hanswer. subst ok. unfold limit.
    destruct (Z.leb_spec
                (1 + calls_of (client first) (api_calls between) + 1) 10).
    + by rewrite bool_decide_eq_true_2 by lia.
    + by rewrite bool_decide_eq_false_2 by lia.
Qed.

Lemma middleware_quota_witness :
  (middleware 5000 {| pathname := "/api/meme/chat"; ip := None |}
     (handle
        [(1000, {| pathname := "/api/session/create"; ip := None |});
         (1100, {| pathname := "/favicon.ico"; ip := None |});
         (1200, {| pathname := "/api/meme/chat";
                   ip := Some "127.0.0.1"%string |})] ∅).1).2
  = Next.
Proof.
  destruct (middleware_quota
              {| pathname := "/api/session/create"; ip := None |} 1000 ∅
              [(1100, {| pathname := "/favicon.ico"; ip := None |});
               (1200, {| pathname := "/api/meme/chat";
                         ip := Some "127.0.0.1"%string |})]
              5000 {| pathname := "/api/meme/chat"; ip := None |})
    as [_ Hcounted].
  - reflexivity.
  - exact I.
  - repeat constructor; vm_compute; discriminate.
  - vm_compute. discriminate.
  - etransitivity; [apply Hcounted; reflexivity | vm_compute; reflexivity].
Defined.

End RateLimiterMore.

(* ===================================================================== *)
(** * Further properties of the session manager *)
(* ===================================================================== *)

Module SessionMore.
Import SessionService SessionTrace.

Section WithAny.
Context {any : Type}.
Implicit Types sessions : gmap string (UserSession any).

(** The timer callback keeps exactly the sessions that were active during
    the last [SESSION_TIMEOUT] milliseconds. *)
Lemma cleanupInterval_lookup now sessions k :
  cleanupInterval now sessions !! k =
    match sessions !! k with
    | Some x => if SESSION_TIMEOUT <? now - lastActive x then None else Some x
    | None => None
    end.
Proof.
  unfold cleanupInterval. destruct (sessions !! k) as [x|] eqn:Hk.
  - destruct (SESSION_TIMEOUT <? now - lastActive x) eqn:Hx.
    + apply map_lookup_filter_None. right. intros y Hy; simpl.
      rewrite Hk in Hy. injection Hy as <-. congruence.
    + by apply map_lookup_filter_Some.
  - apply map_lookup_filter_None. by left.
Qed.

Lemma getSession_other now i sessions k :
  k ≠ i → (getSession now i sessions).1 !! k = sessions !! k.
Proof.
  intros Hne. unfold getSession. destruct (sessions !! i); simpl; [done|].
  by rewrite lookup_insert_ne.
Qed.

Lemma getSession_present now i sessions x :
  sessions !! i = Some x → getSession now i sessions = (sessions, x).
Proof. intros Hx. unfold getSession. by rewrite Hx. Qed.

Lemma updateSession_other now i data sessions k :
  k ≠ i → updateSession now i data sessions !! k = sessions !! k.
Proof.
  intros Hne. unfold updateSession. destruct (sessions !! i); [|done].
  by rewrite lookup_insert_ne.
Qed.

(** X6. Reading twice is reading once: a second [getSession] for the same
    id, at any later time, returns the session that the first one returned
    and leaves the store as the first one left it. *)
Theorem getSession_twice (t1 t2 : Z) (sessionId : string) sessions :
  getSession t2 sessionId (getSession t1 sessionId sessions).1
  = getSession t1 sessionId sessions.
Proof.
  unfold getSession at 2 3.
  destruct (sessions !! sessionId) as [x|] eqn:Hx; simpl.
  - by apply getSession_present.
  - apply getSession_present. by rewrite lookup_insert_eq.
Qed.

(** X7. An update is seen by the next read when the session exists, and is
    lost when it does not: after [updateSession] on an id without session,
    [getSession] creates a fresh session that carries nothing of the
    patch. *)
Theorem update_then_get (t t' : Z) (sessionId : string) (data : Patch any)
    sessions :
  (∀ session, sessions !! sessionId = Some session →
     (getSession t' sessionId (updateSession t sessionId data sessions)).2
     = merge t session data) ∧
  (sessions !! sessionId = None →
     (getSession t' sessionId (updateSession t sessionId data sessions)).2
     = {| id := sessionId; lastActive := t';
          memeService := None; analysis := None |}).
Proof.
  split.
  - intros session Hx. unfold updateSession. rewrite Hx.
    erewrite getSession_present; [done|]. by rewrite lookup_insert_eq.
  - intros Hnone. unfold updateSession. rewrite Hnone.
    unfold getSession. by rewrite Hnone.
Qed.

Lemma step_keyed now o sessions :
  match o with Update _ data => p_id data = None | _ => True end →
  keyed_by_id sessions → keyed_by_id (step now o sessions).
Proof.
  intros Hid Hkeyed k x. destruct o as [uuid|i|i data|]; simpl.
  - destruct (decide (k = uuid)) as [->|Hne].
    + rewrite lookup_insert_eq. by intros [= <-].
    + rewrite lookup_insert_ne by done. apply Hkeyed.
  - destruct (decide (k = i)) as [->|Hne].
    + unfold getSession. destruct (sessions !! i) as [y|] eqn:Hy; simpl.
      * apply Hkeyed.
      * rewrite lookup_insert_eq. by intros [= <-].
    + rewrite getSession_other by done. apply Hkeyed.
  - destruct (decide (k = i)) as [->|Hne].
    + unfold updateSession. destruct (sessions !! i) as [y|] eqn:Hy.
      * rewrite lookup_insert_eq. intros [= <-]. unfold merge; simpl.
        rewrite Hid. simpl. by apply Hkeyed.
      * by rewrite Hy.
    + rewrite updateSession_other by done. apply Hkeyed.
  - rewrite cleanupInterval_lookup.
    destruct (sessions !! k) as [y|] eqn:Hy; [|done].
    destruct (SESSION_TIMEOUT <? now - lastActive y); [done|].
    intros [= <-]. by apply Hkeyed.
Qed.

(** X8. As long as no patch names [id], every session is stored under its
    own [id], whatever sequence of [createSession], [getSession],
    [updateSession] and timer callbacks runs. *)
Theorem sessions_stay_keyed_by_id (trace : list (Z * op any)) sessions :
  keeps_ids trace →
  keyed_by_id sessions →
  keyed_by_id (run trace sessions).
Proof.
  revert sessions. induction trace as [|[now o] rest IH];
    intros sessions Hids Hkeyed; [done|].
  apply Forall_cons in Hids as [Hid Hrest]. simpl.
  apply IH; [done|]. by apply step_keyed.
Qed.

Lemma kept_alive_present sessionId trace : ∀ last sessions,
  (∃ x, sessions !! sessionId = Some x ∧ last ≤ lastActive x) →
  kept_alive sessionId last trace →
  is_Some (run trace sessions !! sessionId).
Proof.
  induction trace as [|[now o] rest IH];
    intros last sessions (x & Hx & Hlast) Halive.
  - simpl. by eexists.
  - destruct Halive as (Hle & Hgap & Halive). simpl.
    destruct o as [uuid|i|i data|]; simpl.
    + apply (IH last); [|done]. destruct (decide (uuid = sessionId)) as [->|].
      * eexists. rewrite lookup_insert_eq. split; [done|]. simpl. lia.
      * exists x. by rewrite lookup_insert_ne.
    + apply (IH last); [|done]. exists x. split; [|done].
      destruct (decide (sessionId = i)) as [<-|Hne].
      * by rewrite (getSession_present _ _ _ _ Hx).
      * by rewrite getSession_other.
    + destruct (decide (i = sessionId)) as [->|Hne].
      * apply (IH now); [|done]. unfold updateSession. rewrite Hx.
        eexists. rewrite lookup_insert_eq. split; [done|]. simpl. lia.
      * apply (IH last); [|done]. exists x.
        by rewrite updateSession_other.
    + apply (IH last); [|done]. exists x. split; [|done].
      rewrite cleanupInterval_lookup, Hx.
      destruct (Z.ltb_spec SESSION_TIMEOUT (now - lastActive x)); [lia|done].
Qed.

(** X9. A session that is updated often enough never expires: if every
    operation of a trace, timer callbacks included, happens within
    [SESSION_TIMEOUT] of the latest [updateSession] of the session (or of
    its [lastActive] at the start), the session is still stored at the
    end. *)
Theorem updated_session_survives (sessionId : string)
    (session : UserSession any) (trace : list (Z * op any)) sessions :
  sessions !! sessionId = Some session →
  kept_alive sessionId (lastActive session) trace →
  is_Some (run trace sessions !! sessionId).
Proof.
  intros Hx. apply kept_alive_present. exists session. split; [done|lia].
Qed.

Lemma reads_keep sessionId trace : ∀ sessions x,
  only_reads trace →
  sessions !! sessionId = Some x →
  run trace sessions !! sessionId = Some x.
Proof.
  induction trace as [|[now o] rest IH]; intros sessions x Hreads Hx; [done|].
  apply Forall_cons in Hreads as [[i Hi] Hrest]. simpl in Hi. subst o.
  simpl. apply IH; [done|].
  destruct (decide (sessionId = i)) as [<-|Hne].
  - by rewrite (getSession_present _ _ _ _ Hx).
  - by rewrite getSession_other.
Qed.

(** X10. Reading does not keep a session alive. However often and whenever
    [getSession] is called, a timer callback that runs more than
    [SESSION_TIMEOUT] after the [lastActive] of the session removes it, and
    the next [getSession] returns a fresh session without the analysis. *)
Theorem reads_do_not_keep_alive (sessionId : string)
    (session : UserSession any) (reads : list (Z * op any)) (now now' : Z)
    sessions :
  sessions !! sessionId = Some session →
  only_reads reads →
  SESSION_TIMEOUT < now - lastActive session →
  cleanupInterval now (run reads sessions) !! sessionId = None ∧
  (getSession now' sessionId (cleanupInterval now (run reads sessions))).2
  = {| id := sessionId; lastActive := now';
       memeService := None; analysis := None |}.
Proof.
  intros Hx Hreads Hold.
  assert (cleanupInterval now (run reads sessions) !! sessionId = None)
    as Hgone.
  { rewrite cleanupInterval_lookup, (reads_keep _ _ _ _ Hreads Hx).
    destruct (Z.ltb_spec SESSION_TIMEOUT (now - lastActive session));
      [done|lia]. }
  split; [done|]. unfold getSession. by rewrite Hgone.
Qed.

(** X11. Two updates of one session amount to one update with the second
    patch laid over the first; the time of the first update leaves no
    trace. *)
Theorem updateSession_twice (t1 t2 : Z) (sessionId : string)
    (d1 d2 : Patch any) sessions :
  updateSession t2 sessionId d2 (updateSession t1 sessionId d1 sessions)
  = updateSession t2 sessionId (overlay d1 d2) sessions.
Proof.
  unfold updateSession at 2 3.
  destruct (sessions !! sessionId) as [x|] eqn:Hx.
  - unfold updateSession. rewrite lookup_insert_eq, insert_insert_eq.
    f_equal. unfold merge, overlay; simpl.
    destruct (p_id d2), (p_memeService d2), (p_analysis d2); reflexivity.
  - unfold updateSession. by rewrite Hx.
Qed.

(** X12. A later timer callback subsumes an earlier one: sweeping at [t1]
    and then at [t2], with [t1 <= t2], leaves what sweeping at [t2] alone
    leaves. *)
Theorem cleanupInterval_twice (t1 t2 : Z) sessions :
  t1 ≤ t2 →
  cleanupInterval t2 (cleanupInterval t1 sessions)
  = cleanupInterval t2 sessions.
Proof.
  intros Hle. apply map_eq. intros k. rewrite !cleanupInterval_lookup.
  destruct (sessions !! k) as [x|]; [|done].
  destruct (Z.ltb_spec SESSION_TIMEOUT (t1 - lastActive x)); [|done].
  destruct (Z.ltb_spec SESSION_TIMEOUT (t2 - lastActive x)); [done|lia].
Qed.

End WithAny.

Lemma update_then_get_witness :
  (getSession (any := unit) 9000 "gone"
     (updateSession 5000 "gone"
        {| p_id := None; p_lastActive := None; p_memeService := None;
           p_analysis := Some (Some tt) |} ∅)).2
  = {| id := "gone"; lastActive := 9000;
       memeService := None; analysis := None |}.
Proof.
  apply (update_then_get (any := unit) 5000 9000 "gone"). reflexivity.
Defined.

Lemma sessions_stay_keyed_by_id_witness :
  keyed_by_id (any := unit)
    (run [(1000, Create "a"); (2000, Get "b");
          (3000, Update "a" {| p_id := None; p_lastActive := None;
                               p_memeService := None;
                               p_analysis := Some (Some tt) |});
          (4000000, Sweep)] ∅).
Proof.
  apply sessions_stay_keyed_by_id.
  - repeat constructor.
  - intros k x Hx. by rewrite lookup_empty in Hx.
Defined.

Lemma updated_session_survives_witness :
  is_Some
    (run (any := unit)
       [(1000000, Sweep);
        (1500000, Update "a" {| p_id := None; p_lastActive := None;
                                p_memeService := None;
                                p_analysis := Some (Some tt) |});
        (3000000, Sweep)]
       {["a" := {| id := "a"; lastActive := 0;
                   memeService := None; analysis := None |}]}
     !! "a").
Proof.
  apply (updated_session_survives (any := unit) "a"
           {| id := "a"; lastActive := 0;
              memeService := None; analysis := None |}).
  - reflexivity.
  - vm_compute. repeat split; discriminate.
Defined.

Lemma reads_do_not_keep_alive_witness :
  cleanupInterval (any := unit) 1800001
    (run [(600000, Get "a"); (1200000, Get "a"); (1800000, Get "a")]
       {["a" := {| id := "a"; lastActive := 0;
                   memeService := None; analysis := Some tt |}]})
  !! "a" = None.
Proof.
  apply (reads_do_not_keep_alive (any := unit) "a"
           {| id := "a"; lastActive := 0;
              memeService := None; analysis := Some tt |}
           [(600000, Get "a"); (1200000, Get "a"); (1800000, Get "a")]
           1800001 1800002).
  - reflexivity.
  - repeat constructor; by eexists.
  - reflexivity.
Defined.

Lemma cleanupInterval_twice_witness :
  cleanupInterval (any := unit) 2000000
    (cleanupInterval 1900000
       {["a" := {| id := "a"; lastActive := 0;
                   memeService := None; analysis := None |};
         "b" := {| id := "b"; lastActive := 150000;
                   memeService := None; analysis := None |}]})
  = cleanupInterval 2000000
      {["a" := {| id := "a"; lastActive := 0;
                  memeService := None; analysis := None |};
        "b" := {| id := "b"; lastActive := 150000;
                  memeService := None; analysis := None |}]}.
Proof.
  apply (cleanupInterval_twice (any := unit)). vm_compute. discriminate.
Defined.

End SessionMore.

(* ===================================================================== *)
(** * Further properties of the conversation generator *)
(* ===================================================================== *)

Module MemeServiceMore.
Import JS MemeService TurnShape.
Import MemeServiceSpec (split_nonempty, split_no_sep, split_app,
  complete_lines_app, complete_lines_pending, read_loop_text, guard_passes,
  last_app_nonempty, decode_ascii_chunks).
Import TextDecoder (unit_of_byte).

Lemma turns_app evs1 evs2 : turns (evs1 ++ evs2) = turns evs1 ++ turns evs2.
Proof. unfold turns. apply flat_map_app. Qed.

(** A run on a response body, by its lines. *)
Lemma generateConversation_body this topic chunks ending :
  analysed this →
  generateConversation this topic (Body chunks ending) =
    {| requests := [{| url := "/api/meme/chat"; req_topic := topic;
                       req_description := descripcionTexto this;
                       req_memeName := memeName this |}];
       events :=
         (rethrow
            (flat_map (on_line this)
               (complete_lines (flat_map TextDecoder.decode chunks)))
            (ending_outcome ending)).1;
       outcome := ending_outcome ending |}.
Proof.
  intros Hok. unfold generateConversation. rewrite (guard_passes _ Hok).
  rewrite (read_loop_text this chunks ending [] eq_refl). simpl.
  by destruct ending.
Qed.

(** X13. A stream that breaks loses no turn: when [read()] rejects with
    [e] after some chunks, the generator has yielded every turn that it
    yields when the stream closes after the same chunks; it then logs [e]
    and throws it. *)
Theorem broken_stream_loses_no_turn (this : MemeService) (topic : jsstring)
    (chunks : list (list byte)) (e : js_error) :
  analysed this →
  let broken := generateConversation this topic (Body chunks (Broken e)) in
  let closed := generateConversation this topic (Body chunks Closed) in
  events broken
    = events closed ++ [ConsoleError "Error generating conversation:" e]
  ∧ turns (events broken) = turns (events closed)
  ∧ outcome broken = Threw e.
Proof.
  intros Hok broken closed. unfold broken, closed.
  rewrite !(generateConversation_body _ _ _ _ Hok). simpl.
  split; [done|]. split; [|done]. rewrite turns_app. simpl.
  by rewrite app_nil_r.
Qed.

Lemma broken_stream_loses_no_turn_witness :
  turns (events (generateConversation pepe (str "gm")
    (Body [ascii_chunk "data: {" ++ dq ++ ascii_chunk "message" ++ dq
           ++ ascii_chunk ":" ++ dq ++ ascii_chunk "Hacky: gm" ++ dq
           ++ ascii_chunk "}" ++ [x0a] ++ ascii_chunk "data: {"]
       (Broken TypeError))))
  = [{| speaker := str "Hacky"; message := str "gm";
        turn_imageUrl := str "/images/hacky.jpeg"; isHacky := true |}].
Proof.
  destruct (broken_stream_loses_no_turn pepe (str "gm")
    [ascii_chunk "data: {" ++ dq ++ ascii_chunk "message" ++ dq
     ++ ascii_chunk ":" ++ dq ++ ascii_chunk "Hacky: gm" ++ dq
     ++ ascii_chunk "}" ++ [x0a] ++ ascii_chunk "data: {"] TypeError)
    as (_ & Hturns & _).
  - split; [by eexists | discriminate].
  - etransitivity; [exact Hturns | vm_compute; reflexivity].
Defined.

(** X14. What follows the last line break is never processed: a stream
    whose text is [body] (empty, or ending in a line break) followed by
    [rest] without line break gives the events of [body] alone, even when
    [rest] is a complete, valid frame. *)
Theorem unterminated_line_is_dropped (this : MemeService) (topic : jsstring)
    (chunks : list (list byte)) (body rest : jsstring) :
  analysed this →
  flat_map TextDecoder.decode chunks = body ++ rest →
  pending body = [] →
  10 ∉ rest →
  events (generateConversation this topic (Body chunks Closed))
  = flat_map (on_line this) (complete_lines body).
Proof.
  intros Hok Htext Hbody Hrest.
  rewrite (generateConversation_body _ _ _ _ Hok). simpl.
  rewrite Htext, complete_lines_app, Hbody. simpl.
  unfold complete_lines at 2. rewrite (split_no_sep _ _ Hrest). simpl.
  by rewrite app_nil_r.
Qed.

Lemma unterminated_line_is_dropped_witness :
  events (generateConversation pepe (str "gm")
    (Body [ascii_chunk "data: {" ++ dq ++ ascii_chunk "message" ++ dq
           ++ ascii_chunk ":" ++ dq ++ ascii_chunk "Pepe: wagmi" ++ dq
           ++ ascii_chunk "}"] Closed))
  = [].
Proof.
  apply (unterminated_line_is_dropped pepe (str "gm") _ []
           (str "data: {" ++ DQ ++ str "message" ++ DQ ++ str ":" ++ DQ
            ++ str "Pepe: wagmi" ++ DQ ++ str "}")).
  - split; [by eexists | discriminate].
  - vm_compute. reflexivity.
  - reflexivity.
  - apply (bool_decide_unpack _). vm_compute. exact I.
Defined.

(** *** Every turn *)

Lemma trimStart_head s c : head (trimStart s) = Some c → is_space c = false.
Proof.
  induction s as [|x r IH]; simpl; [done|].
  destruct (is_space x) eqn:Hx; [exact IH|]. simpl. by intros [= <-].
Qed.

Lemma trimStart_suffix s : ∃ spaces, s = spaces ++ trimStart s.
Proof.
  induction s as [|x r [spaces IH]]; simpl; [by exists []|].
  destruct (is_space x).
  - exists (x :: spaces). simpl. by rewrite <- IH.
  - by exists [].
Qed.

Lemma last_rev {A} (l : list A) : last (rev l) = head l.
Proof. destruct l as [|x l]; [done|]. simpl. apply last_snoc. Qed.

Lemma head_rev {A} (l : list A) : head (rev l) = last l.
Proof. by rewrite <- (rev_involutive l) at 2; rewrite last_rev. Qed.

Lemma trim_tidy s : tidy (trim s).
Proof.
  unfold tidy, trim. split; intros c.
  - rewrite head_rev. intros Hlast.
    destruct (trimStart_suffix (rev (trimStart s))) as [spaces Hsplit].
    assert (trimStart (rev (trimStart s)) ≠ []) as Hne.
    { intros Hnil. by rewrite Hnil in Hlast. }
    rewrite <- (last_app_nonempty spaces _ Hne), <- Hsplit, last_rev in Hlast.
    by apply trimStart_head in Hlast.
  - rewrite last_rev. apply trimStart_head.
Qed.

(** What one line can produce. *)
Lemma on_line_cases this line :
  on_line this line = []
  ∨ (∃ e, on_line this line = [ConsoleError "Error parsing JSON:" e])
  ∨ (∃ t, on_line this line = [Yield t] ∧ attributed this t
          ∧ tidy (message t)).
Proof.
  unfold on_line. destruct (startsWith _ line); [|by left].
  unfold parse_line. destruct (JSON.parse _) as [data|e]; simpl;
    [|right; left; by eexists].
  destruct (JSON.get _ data) as [m|e]; simpl; [|right; left; by eexists].
  destruct (JSON.truthy m); [|by left].
  destruct m as [[| | |text| |]|]; cbn [startsWith_of slice_trim_of bind];
    try (right; left; by eexists).
  right; right. destruct (startsWith (str "Hacky:") text);
    cbn [slice_trim_of bind];
    eexists; (split; [done|]); (split; [|apply trim_tidy]).
  - by left.
  - by right.
Qed.

Lemma turns_of_lines this lines :
  Forall (λ t, attributed this t ∧ tidy (message t))
         (turns (flat_map (on_line this) lines))
  ∧ (length (turns (flat_map (on_line this) lines)) ≤ length lines)%nat.
Proof.
  induction lines as [|line rest [IH1 IH2]]; [split; [constructor|done]|].
  cbn [flat_map]. rewrite turns_app, length_app. simpl.
  destruct (on_line_cases this line) as [->|[[e ->]|(t & -> & Ht)]]; simpl.
  - split; [done|lia].
  - split; [done|lia].
  - split; [by constructor|lia].
Qed.

(** The turns of any run are the turns of the lines of its body. *)
Lemma turns_of_run this topic net :
  turns (events (generateConversation this topic net)) = []
  ∨ ∃ chunks ending,
      net = Body chunks ending ∧
      turns (events (generateConversation this topic net))
      = turns (flat_map (on_line this)
                 (complete_lines (flat_map TextDecoder.decode chunks))).
Proof.
  unfold generateConversation. destruct (negb _ || _); [by left|].
  destruct net as [e| |chunks ending]; [by left|by left|].
  right. exists chunks, ending. split; [done|].
  rewrite (read_loop_text this chunks ending [] eq_refl).
  destruct ending; simpl; [done|]. rewrite turns_app. simpl.
  by rewrite app_nil_r.
Qed.

(** X15. Whatever the network sends, every turn that the generator yields
    is either a turn of the fixed persona (speaker ["Hacky"], the static
    image, [isHacky] set) or a turn of the character (its name, its image,
    [isHacky] not set). *)
Theorem every_turn_is_attributed (this : MemeService) (topic : jsstring)
    (net : network) :
  Forall (attributed this)
         (turns (events (generateConversation this topic net))).
Proof.
  destruct (turns_of_run this topic net) as [->|(chunks & ending & _ & ->)];
    [constructor|].
  eapply Forall_impl; [apply turns_of_lines|]. by intros t [Ht _].
Qed.

(** X16. Whatever the network sends, the message of every turn that the
    generator yields neither starts nor ends with white space. *)
Theorem every_message_is_trimmed (this : MemeService) (topic : jsstring)
    (net : network) :
  Forall (λ t, tidy (message t))
         (turns (events (generateConversation this topic net))).
Proof.
  destruct (turns_of_run this topic net) as [->|(chunks & ending & _ & ->)];
    [constructor|].
  eapply Forall_impl; [apply turns_of_lines|]. by intros t [_ Ht].
Qed.

Lemma length_split s :
  length (split 10 s) = S (line_breaks s).
Proof.
  unfold line_breaks. induction s as [|c r IH]; [done|].
  simpl. rewrite filter_cons.
  destruct (Z.eqb_spec c 10) as [->|Hne].
  - rewrite decide_True by done. simpl. by rewrite IH.
  - rewrite decide_False by done.
    pose proof (split_nonempty 10 r).
    destruct (split 10 r) as [|h t]; [done|]. simpl in *. exact IH.
Qed.

Lemma length_complete_lines s : length (complete_lines s) = line_breaks s.
Proof.
  unfold complete_lines. pose proof (length_split s) as Hlen.
  pose proof (split_nonempty 10 s) as Hne.
  destruct (exists_last Hne) as (front & final & Hsplit).
  rewrite Hsplit in *. rewrite removelast_last.
  rewrite length_app in Hlen. simpl in Hlen. lia.
Qed.

(** X17. The generator yields at most one turn per line break of the text
    it has received. *)
Theorem at_most_one_turn_per_line (this : MemeService) (topic : jsstring)
    (chunks : list (list byte)) (ending : stream_end) :
  (length (turns (events (generateConversation this topic
                            (Body chunks ending))))
   ≤ line_breaks (flat_map TextDecoder.decode chunks))%nat.
Proof.
  destruct (turns_of_run this topic (Body chunks ending))
    as [->|(chunks' & ending' & [= <- <-] & ->)]; [simpl; lia|].
  rewrite <- length_complete_lines. apply turns_of_lines.
Qed.

(** X18. Cutting the buffer into lines loses nothing: the complete lines
    and the pending rest, joined by line breaks, are the buffer. *)
Theorem lines_and_pending_rebuild_text (text : jsstring) :
  join NL (complete_lines text ++ [pending text]) = text.
Proof.
  assert (complete_lines text ++ [pending text] = split 10 text) as ->.
  { unfold complete_lines, pending.
    destruct (exists_last (split_nonempty 10 text)) as (front & final & ->).
    by rewrite removelast_last, last_snoc. }
  induction text as [|c r IH]; [done|]. simpl.
  pose proof (split_nonempty 10 r) as Hne.
  destruct (Z.eqb_spec c 10) as [->|_].
  - destruct (split 10 r) as [|h t]; [done|].
    change (join NL ([] :: h :: t)) with (NL ++ join NL (h :: t)).
    by rewrite IH.
  - destruct (split 10 r) as [|h t]; [done|].
    destruct t as [|h' t]; simpl in *; by rewrite <- IH.
Qed.

(** X19. After [initializeCharacter], whatever the analysis holds (empty
    name, no traits), the guard of [generateConversation] lets the call
    through: exactly one request is sent, with the description written by
    [convertToTextDescription] and the name of the character. *)
Theorem initialized_service_sends_one_request (analysis : CharacterAnalysis)
    (image : jsstring) (prior : MemeService) (topic : jsstring)
    (net : network) :
  analysed (initializeCharacter analysis image prior) ∧
  requests (generateConversation (initializeCharacter analysis image prior)
              topic net)
  = [{| url := "/api/meme/chat"; req_topic := topic;
        req_description := convertToTextDescription analysis;
        req_memeName := name analysis |}].
Proof.
  assert (analysed (initializeCharacter analysis image prior)) as Hok.
  { split; [by eexists | discriminate]. }
  split; [exact Hok|]. unfold generateConversation.
  rewrite (guard_passes _ Hok).
  destruct net as [e| |chunks ending]; simpl; try done.
  destruct (read_loop _ _ _ _) as [evs c]. by destruct c.
Qed.

(** X20. The decoded text decides the run: two response bodies whose chunks
    decode to the same text, and that end alike, give the same run. For
    ASCII bytes the text is the bytes, so any two ways of cutting the same
    ASCII bytes into chunks, empty chunks included, give the same run. *)
Theorem decoded_text_decides_run (this : MemeService) (topic : jsstring)
    (chunks1 chunks2 : list (list byte)) (ending : stream_end) :
  (flat_map TextDecoder.decode chunks1 = flat_map TextDecoder.decode chunks2 →
   generateConversation this topic (Body chunks1 ending)
   = generateConversation this topic (Body chunks2 ending)) ∧
  (Forall (Forall (λ b, unit_of_byte b ≤ 127)) chunks1 →
   Forall (Forall (λ b, unit_of_byte b ≤ 127)) chunks2 →
   concat chunks1 = concat chunks2 →
   generateConversation this topic (Body chunks1 ending)
   = generateConversation this topic (Body chunks2 ending)).
Proof.
  assert (flat_map TextDecoder.decode chunks1
          = flat_map TextDecoder.decode chunks2 →
          generateConversation this topic (Body chunks1 ending)
          = generateConversation this topic (Body chunks2 ending)) as Htext.
  { intros Hsame. unfold generateConversation.
    destruct (negb _ || _); [done|].
    rewrite !(read_loop_text _ _ _ [] eq_refl). simpl. by rewrite Hsame. }
  split; [exact Htext|]. intros H1 H2 Hsame. apply Htext.
  by rewrite (decode_ascii_chunks _ H1), (decode_ascii_chunks _ H2), Hsame.
Qed.

Lemma decoded_text_decides_run_witness :
  generateConversation pepe (str "gm")
    (Body [ascii_chunk "da"; []; ascii_chunk "ta: {}" ++ [x0a]] Closed)
  = generateConversation pepe (str "gm")
      (Body [ascii_chunk "data: {}" ++ [x0a]] Closed).
Proof.
  destruct (decoded_text_decides_run pepe (str "gm")
              [ascii_chunk "da"; []; ascii_chunk "ta: {}" ++ [x0a]]
              [ascii_chunk "data: {}" ++ [x0a]] Closed) as [_ Hascii].
  apply Hascii.
  - repeat constructor; vm_compute; discriminate.
  - repeat constructor; vm_compute; discriminate.
  - reflexivity.
Defined.

End MemeServiceMore.

(* ===================================================================== *)
(** * Properties of the direct messages *)
(* ===================================================================== *)

Module DirectMessageMore.
Import JS MemeService DirectMessage.
Import MemeServiceSpec (guard_passes).

(** X21. [sendDirectMessage] needs a character and [sendHackyMessage] does
    not: without an analysis the first throws ['Must analyze image first']
    and sends and logs nothing, while the second sends its one request, for
    the persona ["Hacky"], in every state of the service. *)
Theorem hacky_needs_no_analysis (this : MemeService) (message : jsstring)
    (net : result JSON.json) :
  (descripcionPersonaje this = None →
     sendDirectMessage this message net
     = {| requests := []; logged := [];
          outcome := inl (Raised (Error "Must analyze image first")) |}) ∧
  requests (sendHackyMessage this message net)
  = [{| url := "/api/meme/direct-message"; req_message := message;
        req_description := HACKY_DESCRIPTION;
        req_memeName := str "Hacky" |}] ∧
  (analysed this →
     outcome (sendHackyMessage this message net)
     = outcome (sendDirectMessage this message net)).
Proof.
  split; [|split].
  - intros Hnone. unfold sendDirectMessage. by rewrite Hnone.
  - done.
  - intros Hok. unfold sendDirectMessage. by rewrite (guard_passes _ Hok).
Qed.

Lemma hacky_needs_no_analysis_witness :
  sendDirectMessage new (str "gm") (Ok (JSON.JObject []))
  = {| requests := []; logged := [];
       outcome := inl (Raised (Error "Must analyze image first")) |}.
Proof.
  apply (hacky_needs_no_analysis new (str "gm") (Ok (JSON.JObject []))).
  reflexivity.
Defined.

(** X22. With a character, [sendDirectMessage] sends one request and
    returns [data.message], unchecked, exactly when the response parses
    to a value other than [null] whose [success] is truthy; every other
    answer makes it throw, and what it throws is logged once, under
    ['Error sending message:']. *)
Theorem sendDirectMessage_reply (this : MemeService) (message : jsstring)
    (net : result JSON.json) :
  analysed this →
  let call := sendDirectMessage this message net in
  length (requests call) = 1%nat ∧
  (∀ m, outcome call = inr m ↔
        ∃ data success, net = Ok data
          ∧ JSON.get (str "success") data = Ok success
          ∧ JSON.truthy success = true
          ∧ JSON.get (str "message") data = Ok m) ∧
  (∀ t, outcome call = inl t →
        logged call = [("Error sending message:"%string, t)]) ∧
  (∀ m, outcome call = inr m → logged call = []).
Proof.
  intros Hok call. unfold call, sendDirectMessage.
  rewrite (guard_passes _ Hok). cbn [requests outcome logged].
  split; [done|]. split; [|split].
  - intros m. unfold read_reply. split.
    + destruct net as [data|e]; [|done].
      destruct (JSON.get (str "success") data) as [success|e] eqn:Hs; [|done].
      destruct (JSON.truthy success) eqn:Ht; simpl.
      * destruct (JSON.get (str "message") data) as [m'|e] eqn:Hm; [|done].
        intros [= <-]. by exists data, success.
      * destruct (JSON.get (str "error") data) as [error|]; [|done].
        by destruct (printable_value error).
    + intros (data & success & -> & -> & -> & ->). done.
  - intros t Ht. by rewrite Ht.
  - intros m Hm. by rewrite Hm.
Qed.

Lemma sendDirectMessage_reply_witness :
  outcome (sendDirectMessage pepe (str "gm")
             (Ok (JSON.JObject [(str "success", JSON.JBool true)])))
  = inr None.
Proof.
  destruct (sendDirectMessage_reply pepe (str "gm")
              (Ok (JSON.JObject [(str "success", JSON.JBool true)])))
    as (_ & Hreply & _).
  - split; [by eexists | discriminate].
  - apply Hreply. eexists _, _. repeat split; reflexivity.
Defined.

Ltac break :=
  repeat match goal with
         | H : _ ∧ _ |- _ => destruct H
         | H : ∃ _, _ |- _ => destruct H
         end.

Lemma POST_try_filled data completion :
  filled data = true → printable_fields data = true →
  POST_try (Ok data) completion =
    match completion with
    | Throw e => Throw e
    | Ok None | Ok (Some []) =>
        Throw (Error "No se recibió respuesta válida de OpenAI")
    | Ok (Some text) => Ok {| status := 200; payload := Reply text |}
    end.
Proof.
  unfold filled, printable_fields, POST_try. cbn [bind].
  destruct (JSON.get (str "message") data) as [m|]; [|done].
  destruct (JSON.get (str "description") data) as [d|]; [|done].
  destruct (JSON.get (str "memeName") data) as [n|]; [|done].
  cbn [bind]. intros Hall Hprintable.
  apply andb_true_iff in Hall as [Hmd Hn].
  apply andb_true_iff in Hmd as [Hm Hd].
  rewrite Hm, Hd, Hn, Hprintable. simpl.
  by destruct completion as [[[|c text]|]|e].
Qed.

Lemma POST_try_not_printable data completion :
  filled data = true → printable_fields data = false →
  POST_try (Ok data) completion = Throw TypeError.
Proof.
  unfold filled, printable_fields, POST_try. cbn [bind].
  destruct (JSON.get (str "message") data) as [m|]; [|done].
  destruct (JSON.get (str "description") data) as [d|]; [|done].
  destruct (JSON.get (str "memeName") data) as [n|]; [|done].
  cbn [bind]. intros Hall Hprintable.
  apply andb_true_iff in Hall as [Hmd Hn].
  apply andb_true_iff in Hmd as [Hm Hd].
  by rewrite Hm, Hd, Hn, Hprintable.
Qed.

Lemma POST_try_not_filled data completion :
  data ≠ JSON.JNull → filled data = false →
  POST_try (Ok data) completion =
    Ok {| status := 400;
          payload :=
            ErrorText "Message, description and memeName are required" |}.
Proof.
  intros Hnull. unfold filled, POST_try. cbn [bind].
  assert (∀ key, JSON.get key data = Ok (match data with
                                          | JSON.JObject members =>
                                              JSON.member key members
                                          | _ => None
                                          end)) as Hget.
  { intros key. by destruct data. }
  rewrite !Hget. cbn [bind]. intros Hany.
  apply andb_false_iff in Hany as [Hmd | Hn].
  - apply andb_false_iff in Hmd as [Hm | Hd].
    + by rewrite Hm.
    + rewrite Hd. by rewrite orb_true_r.
  - rewrite Hn. by rewrite !orb_true_r.
Qed.

(** X23. The direct-message route answers 200, 400 or 500. It answers 200,
    with the text of the provider as the reply, exactly when the body
    carries a truthy [message], [description] and [memeName], each of them
    with a string form, and the provider returns a non-empty text; it
    answers 400, without looking at the provider, exactly when the body is
    a value other than [null] that lacks one of the three. *)
Theorem direct_route_status (body : result JSON.json)
    (completion : result (option jsstring)) :
  let response := DirectMessage.POST body completion in
  (status response = 200 ∨ status response = 400 ∨ status response = 500) ∧
  (∀ text, response = {| status := 200; payload := Reply text |} ↔
           text ≠ [] ∧ completion = Ok (Some text) ∧
           ∃ data, body = Ok data ∧ filled data = true
                   ∧ printable_fields data = true) ∧
  (status response = 400 ↔
     ∃ data, body = Ok data ∧ data ≠ JSON.JNull ∧ filled data = false).
Proof.
  assert (∀ P Q R : Prop, P → Q → R → P ∧ Q ∧ R) as conj3 by tauto.
  intros response. unfold response, DirectMessage.POST.
  destruct body as [data|e].
  - destruct (filled data) eqn:Hfilled.
    + destruct (printable_fields data) eqn:Hprintable.
      * rewrite (POST_try_filled _ _ Hfilled Hprintable).
        destruct completion as [[[|c text]|]|e]; simpl;
          (apply conj3; [auto | intros text'; split | split]);
          try done; try (intros; break; simplify_eq; done);
          try (intros; break; simplify_eq; congruence).
        intros [= <-]. split; [done|]. split; [done|]. by exists data.
      * rewrite (POST_try_not_printable _ _ Hfilled Hprintable). simpl.
        apply conj3; [auto | intros text'; split | split]; try done;
          intros; break; simplify_eq; congruence.
    + assert (data = JSON.JNull ∨ data ≠ JSON.JNull) as [->|Hnull].
      { destruct data; auto; right; discriminate. }
      * simpl. apply conj3; [auto | intros text'; split | split];
          try done; intros; break; simplify_eq; done.
      * rewrite (POST_try_not_filled _ _ Hnull Hfilled). simpl.
        apply conj3; [auto | intros text'; split | split]; try done.
        -- intros (_ & _ & ? & ? & ? & _). simplify_eq. congruence.
        -- intros _. by exists data.
  - simpl. apply conj3; [auto | intros text'; split | split]; try done.
    + by intros (_ & _ & ? & ? & _).
    + by intros (? & ? & _).
Qed.

Lemma direct_route_status_witness :
  status (DirectMessage.POST
            (Ok (JSON.JObject [(str "message", JSON.JString (str "gm"))]))
            (Ok (Some (str "wagmi")))) = 400.
Proof.
  destruct (direct_route_status
              (Ok (JSON.JObject [(str "message", JSON.JString (str "gm"))]))
              (Ok (Some (str "wagmi")))) as (_ & _ & Hbad).
  apply Hbad. eexists. split; [reflexivity|]. split; [discriminate|].
  reflexivity.
Defined.

Lemma wire_message r :
  JSON.get (str "message") (wire r)
  = Ok (Some (JSON.JString (req_message r))).
Proof. reflexivity. Qed.

Lemma wire_description r :
  JSON.get (str "description") (wire r)
  = Ok (Some (JSON.JString (req_description r))).
Proof. reflexivity. Qed.

Lemma wire_memeName r :
  JSON.get (str "memeName") (wire r)
  = Ok (Some (JSON.JString (req_memeName r))).
Proof. reflexivity. Qed.

(** X24. The client and the route together. With a character,
    [sendDirectMessage] answered by the route throws the route's
    ['Message, description and memeName are required'] when the message or
    the name of the character is empty, so a character with an empty name
    can never be sent a message; otherwise it returns the text of the
    provider when there is one, and throws the error of the provider when
    the provider throws. *)
Theorem direct_message_round_trip (message_of : js_error → jsstring)
    (this : MemeService) (message : jsstring)
    (completion : result (option jsstring)) :
  analysed this →
  let call := sendDirectMessage this message
                (served message_of this message completion) in
  (message = [] ∨ memeName this = [] →
     outcome call
     = inl (ErrorFrom (Some (JSON.JString
              (str "Message, description and memeName are required"))))) ∧
  (message ≠ [] → memeName this ≠ [] →
     (∀ text, text ≠ [] → completion = Ok (Some text) →
        outcome call = inr (Some (JSON.JString text))) ∧
     (∀ e, completion = Throw e →
        outcome call = inl (ErrorFrom (Some (JSON.JString (message_of e)))))).
Proof.
  intros Hok call. unfold call, sendDirectMessage.
  rewrite (guard_passes _ Hok). cbn [outcome].
  destruct Hok as [_ Hdescription].
  unfold served, DirectMessage.POST.
  set (data := wire _).
  assert (filled data
          = negb (eqb_units message []) && negb (eqb_units (memeName this) []))
    as Hfilled.
  { unfold filled, data.
    rewrite wire_message, wire_description, wire_memeName.
    cbn [JSON.truthy req_message req_description req_memeName].
    destruct (descripcionTexto this); [done|]. cbn [eqb_units negb].
    by rewrite andb_true_r. }
  split.
  - intros Hempty.
    rewrite POST_try_not_filled; [done | done |].
    rewrite Hfilled. destruct Hempty as [-> | ->]; [done|].
    by rewrite andb_false_r.
  - intros Hmessage Hname.
    rewrite POST_try_filled; [| |reflexivity].
    2:{ rewrite Hfilled. destruct message; [done|].
        by destruct (memeName this). }
    split.
    + intros text Htext ->. by destruct text.
    + by intros e ->.
Qed.

Lemma direct_message_round_trip_witness :
  outcome (sendDirectMessage
             (initializeCharacter
                {| name := []; appearanceTraits := []; possibleJokes := [];
                   personality := [] |} [] new)
             (str "gm")
             (served (λ _, str "failed")
                (initializeCharacter
                   {| name := []; appearanceTraits := []; possibleJokes := [];
                      personality := [] |} [] new)
                (str "gm") (Ok (Some (str "wagmi")))))
  = inl (ErrorFrom (Some (JSON.JString
           (str "Message, description and memeName are required")))).
Proof.
  destruct (direct_message_round_trip (λ _, str "failed")
              (initializeCharacter
                 {| name := []; appearanceTraits := []; possibleJokes := [];
                    personality := [] |} [] new)
              (str "gm") (Ok (Some (str "wagmi")))) as [Hempty _].
  - split; [by eexists | discriminate].
  - apply Hempty. by right.
Defined.

End DirectMessageMore.

(* ===================================================================== *)
(** * Further properties of the image-analysis route *)
(* ===================================================================== *)

Module AnalyzeRouteMore.
Import JS SessionService AnalyzeRoute.
Import SessionMore (getSession_other, updateSession_other).

Section Route.
Variables (t_get t_update : Z) (form : Form).
Variable completion : result (option jsstring).
Variable sessions : gmap string (UserSession JSON.json).

(** The route, path by path. *)
Lemma POST_paths :
  POST t_get t_update form completion sessions =
    if negb (present (sessionId form)) then
      (sessions, {| status := 400;
                    payload := ErrorText "Se requiere sessionId" |})
    else
      let sid := default EmptyString (sessionId form) in
      let created := (getSession t_get sid sessions).1 in
      if negb (bool_decide (is_Some (file form)))
         || negb (present (memeName form)) then
        (created,
         {| status := 400;
            payload := ErrorText "Se requiere archivo y nombre del meme" |})
      else
        match completion with
        | Throw e => (created, {| status := 500; payload := ErrorOf e |})
        | Ok None | Ok (Some []) =>
            (created,
             {| status := 500;
                payload :=
                  ErrorOf (Error "No se recibió respuesta válida de OpenAI") |})
        | Ok (Some text) =>
            match JSON.parse text with
            | Throw e => (created, {| status := 500; payload := ErrorOf e |})
            | Ok analysis =>
                (updateSession t_update sid
                   {| p_id := None; p_lastActive := None;
                      p_memeService := None;
                      p_analysis := Some (Some analysis) |} created,
                 {| status := 200; payload := Success analysis |})
            end
        end.
Proof.
  unfold POST, POST_try.
  destruct (negb (present (sessionId form))); [done|].
  destruct (getSession t_get _ sessions) as [created session]. simpl.
  destruct (negb _ || negb _); [done|].
  destruct completion as [[[|c text]|]|e]; try done.
  by destruct (JSON.parse (c :: text)).
Qed.

(** X25. The image-analysis route answers 200, 400 or 500. It answers 200
    with an analysis exactly when the form carries a non-empty session id,
    a file and a non-empty name and the provider returns a non-empty text
    that [JSON.parse] accepts; the analysis is then whatever that text
    parses to. *)
Theorem analyze_route_status :
  let response := (POST t_get t_update form completion sessions).2 in
  (status response = 200 ∨ status response = 400 ∨ status response = 500) ∧
  (∀ analysis,
     response = {| status := 200; payload := Success analysis |} ↔
     present (sessionId form) = true ∧ is_Some (file form)
     ∧ present (memeName form) = true
     ∧ ∃ text, text ≠ [] ∧ completion = Ok (Some text)
               ∧ JSON.parse text = Ok analysis).
Proof.
  rewrite POST_paths. cbn zeta.
  destruct (present (sessionId form)) eqn:Hsid; simpl.
  2:{ split; [auto|]. intros analysis. split; [done|]. by intros [? _]. }
  destruct (decide (is_Some (file form))) as [Hfile|Hfile].
  2:{ rewrite bool_decide_eq_false_2 by done. simpl.
      split; [auto|]. intros analysis. split; [done|]. by intros (_ & ? & _). }
  rewrite bool_decide_eq_true_2 by done. simpl.
  destruct (present (memeName form)) eqn:Hname; simpl.
  2:{ split; [auto|]. intros analysis. split; [done|].
      by intros (_ & _ & ? & _). }
  destruct completion as [[[|c text]|]|e]; simpl.
  - split; [auto|]. intros analysis. split; [done|].
    intros (_ & _ & _ & text & Htext & [= <-] & _). done.
  - destruct (JSON.parse (c :: text)) as [parsed|e] eqn:Hparse; simpl.
    + split; [auto|]. intros analysis. split.
      * intros [= <-]. repeat split; try done. by exists (c :: text).
      * intros (_ & _ & _ & text' & _ & [= <-] & Hparse').
        rewrite Hparse in Hparse'. by injection Hparse' as <-.
    + split; [auto|]. intros analysis. split; [done|].
      intros (_ & _ & _ & text' & _ & [= <-] & Hparse'). congruence.
  - split; [auto|]. intros analysis. split; [done|].
    by intros (_ & _ & _ & text & _ & ? & _).
  - split; [auto|]. intros analysis. split; [done|].
    by intros (_ & _ & _ & text & _ & ? & _).
Qed.




End Route.

Lemma analyze_route_status_witness :
  status (POST 1000 2000
            {| file := Some {| file_type := "image/png"; file_bytes := [] |};
               memeName := Some "Pepe"%string;
               sessionId := Some "s1"%string |}
            (Ok (Some (str "42"))) ∅).2 = 200.
Proof.
  destruct (analyze_route_status 1000 2000
              {| file := Some {| file_type := "image/png"; file_bytes := [] |};
                 memeName := Some "Pepe"%string;
                 sessionId := Some "s1"%string |}
              (Ok (Some (str "42"))) ∅) as [_ Hok].
  destruct (Hok (JSON.JNumber 42 0)) as [_ Hback].
  rewrite Hback; [reflexivity|].
  split; [reflexivity|]. split; [by eexists|]. split; [reflexivity|].
  exists (str "42"). split; [discriminate|]. split; reflexivity.
Defined.



End AnalyzeRouteMore.
